(** * Breezy delta codec: the header reader of [delta.h]

    [delta.h] declares the delta index and the delta builder and defines one
    function, the inline reader of the two size fields that open every delta
    stream:

<<
    static inline unsigned long get_delta_hdr_size(const unsigned char **datap,
                                                   const unsigned char *top)
>>

    This development embeds that function, with the C integer conversions it
    goes through written out, and states the properties of the header format
    over it.  The index and the builder are only declared in [delta.h]; they
    are modelled further down from their written description. *)

From Equations Require Import Equations.
From Stdlib Require Import ZArith List Lia Bool Arith.
From Stdlib.Strings Require Import Byte.
Import ListNotations.
Local Open Scope Z_scope.

(** ** C integers (LP64: 32-bit [int], 64-bit [unsigned long]) *)

Definition int_bits : Z := 32.
Definition ulong_bits : Z := 64.

(** A mathematical integer reduced to a two's complement [int]. *)
Definition wrap_int (z : Z) : Z :=
  (z + 2 ^ (int_bits - 1)) mod 2 ^ int_bits - 2 ^ (int_bits - 1).

(** Conversion of an [int] to [unsigned long]: reduction modulo [2^64], which
    sign-extends a negative [int]. *)
Definition to_ulong (z : Z) : Z := z mod 2 ^ ulong_bits.

(** The value of an [unsigned char], after promotion to [int]. *)
Definition uchar (b : byte) : Z := Z.of_N (Byte.to_N b).

(** [a << i] on [int], as the compiled code computes it: the count is taken
    modulo the width (x86-64 and AArch64 shifts) and the result is truncated
    to 32 bits (GCC and Clang define signed [<<] by wrap-around). *)
Definition shl_int (a i : Z) : Z := wrap_int (Z.shiftl a (i mod int_bits)).

(** ISO C gives [a << i] a value only for a count within the width and a
    result that fits [int] (C11 6.5.7); [i + 7] only when it fits [int].
    [step_defined] holds when one execution of the loop body stays inside
    that fragment. *)
Definition shl_defined (a i : Z) : bool :=
  (0 <=? i) && (i <? int_bits) && (0 <=? a) && (Z.shiftl a i <? 2 ^ (int_bits - 1)).

Definition step_defined (a i : Z) : bool :=
  shl_defined a i && (i + 7 <? 2 ^ (int_bits - 1)).

(** ** get_delta_hdr_size *)

(** What one call does: the value returned together with the cursor stored
    back in [*datap] ([None] when a byte outside the buffer was dereferenced),
    the offsets dereferenced in order, the number of executions of the loop
    body, and whether every integer operation stayed within ISO C. *)
Record run : Type := mk_run {
  returned : option (Z * nat);
  reads : list nat;
  iterations : nat;
  arith_defined : bool }.

Definition inspect {A : Type} (a : A) : { b : A | a = b } := exist _ a eq_refl.

(** [cmd & ~0x80]: both operands are [int]. *)
Definition low7 (cmd : Z) : Z := Z.land cmd (Z.lnot 128).

(** [size |= (cmd & ~0x80) << i]: the shift is an [int] shift, its result is
    converted to [unsigned long] for the [|=]. *)
Definition accumulate (size cmd i : Z) : Z :=
  Z.lor size (to_ulong (shl_int (low7 cmd) i)).

(** [cmd & 0x80 && data < top], evaluated after [data] was incremented. *)
Definition loop_again (cmd : Z) (data top : nat) : bool :=
  negb (Z.land cmd 128 =? 0) && (data <? top)%nat.

(** One more execution of the body in front of the run [r] of the rest. *)
Definition again (data : nat) (ok : bool) (r : run) : run :=
  mk_run (returned r) (data :: reads r) (S (iterations r)) (ok && arith_defined r).

(** The [do { ... } while (...)] loop.  Pointers into the delta buffer are
    offsets from its first byte; [size] and [i] are the C variables. *)
Equations? hdr_loop (buf : list byte) (top data : nat) (size i : Z) : run
  by wf (top - data)%nat lt :=
hdr_loop buf top data size i with inspect (nth_error buf data) := {
  | exist _ None _ => mk_run None [data] 1 true
  | exist _ (Some cmd) _ with inspect (loop_again (uchar cmd) (S data) top) := {
    | exist _ true _ =>
        again data (step_defined (low7 (uchar cmd)) i)
          (hdr_loop buf top (S data) (accumulate size (uchar cmd) i) (wrap_int (i + 7)))
    | exist _ false _ =>
        mk_run (Some (accumulate size (uchar cmd) i, S data)) [data] 1
               (step_defined (low7 (uchar cmd)) i) } }.
Proof.
  unfold loop_again in *.
  match goal with
  | H : _ && _ = true |- _ => apply andb_prop in H as [_ H]; apply Nat.ltb_lt in H
  end.
  lia.
Qed.

Definition get_delta_hdr_size (buf : list byte) (datap top : nat) : run :=
  hdr_loop buf top datap 0 0.

(** ** The header varint, as written by the delta builder *)

(** The byte whose value is [z] modulo 256. *)
Definition byte_of_Z (z : Z) : byte :=
  match Byte.of_N (Z.to_N (z mod 256)) with
  | Some b => b
  | None => x00
  end.

(** Modelled from the spec: the encoder of a header size is part of
    [create_delta], which [delta.h] only declares.  An unsigned integer is
    chunked into 7-bit groups, least-significant first; every byte except the
    last has its high bit set.  [fuel] bounds the number of continuation
    bytes. *)
Fixpoint encode_groups (fuel : nat) (n : Z) : list byte :=
  match fuel with
  | O => [byte_of_Z (n mod 128)]
  | S fuel' =>
      if n <? 128 then [byte_of_Z n]
      else byte_of_Z (128 + n mod 128) :: encode_groups fuel' (n / 128)
  end.

(** Modelled from the spec: the varint of [n] as [create_delta] writes it in
    the header, with fuel for every 7-bit group of [n]. *)
Definition encode_varint (n : Z) : list byte :=
  encode_groups (Z.to_nat (Z.log2 n)) n.

(** The number denoted by a sequence of 7-bit groups, least-significant
    first: the sum of [(byte & 0x7F) << (7 * k)]. *)
Fixpoint groups_value (l : list byte) : Z :=
  match l with
  | [] => 0
  | b :: l' => uchar b mod 128 + 128 * groups_value l'
  end.

(** The bytes of [buf] from offset [from] up to, not including, [to]. *)
Definition slice (buf : list byte) (from to : nat) : list byte :=
  firstn (to - from) (skipn from buf).

(** Every byte of [buf] in [[datap, top)] has its continuation bit set, and
    [top] is within the buffer: the stream ends before a terminating byte. *)
Definition truncated (buf : list byte) (datap top : nat) : Prop :=
  (datap < top <= length buf)%nat /\
  forall p b, (datap <= p < top)%nat -> nth_error buf p = Some b ->
              Z.land (uchar b) 128 <> 0.

(** The call came back with a size and a cursor. *)
Definition ordinary_return (r : run) : Prop :=
  exists v c, returned r = Some (v, c).

(** An [unsigned long] that is the conversion of some [int]: its bits from
    bit 31 up are all equal. *)
Definition sign_extended (z : Z) : Prop :=
  0 <= z < 2 ^ 31 \/ 2 ^ 64 - 2 ^ 31 <= z < 2 ^ 64.

(** The byte [b] with its continuation bit set, and an encoding made one
    byte longer than it has to be: every byte continued, then a zero group. *)
Definition with_continuation (b : byte) : byte := byte_of_Z (Z.lor (uchar b) 128).

Definition pad_varint (l : list byte) : list byte :=
  map with_continuation l ++ [x00].

(** * The delta codec declared by [delta.h]

    [create_delta_index] and [create_delta] are declared in [delta.h] and
    defined elsewhere.  What follows models them, and the stream format they
    share with the routine that applies a delta, from their written
    description. *)

(** ** Sources *)

(** [struct source_info]: the buffer, its length and where it starts within
    the aggregate source.  The fields keep their C names inside a module of
    their own, [size] being a local variable of the header reader as well. *)
Module Source.
Record source_info : Type := mk {
  buf : list byte;
  size : nat;
  agg_offset : nat }.
End Source.

Definition source_info : Type := Source.source_info.

(** The [size] bytes at [buf]. *)
Definition source_bytes (src : source_info) : list byte :=
  firstn (Source.size src) (Source.buf src).

(** ** The instruction stream *)

(** Modelled from the spec: the two operations of a delta stream, which
    [delta.h] does not declare.  [Copy] reproduces [len] bytes of the source
    from [offset]; [Insert] appends literal bytes. *)
Inductive op : Type :=
| Copy (offset len : nat)
| Insert (literal : list byte).


(** Modelled from the spec: the limits of the binary delta format, which
    [delta.h] does not spell out.  A copy carries at most [0x10000] bytes and
    an offset of four bytes; an insert carries 1 to 127 literal bytes. *)
Definition max_copy_length : Z := 65536.
Definition max_insert_length : nat := 127.
Definition offset_limit : Z := 2 ^ 32.

Notation "' p <- a ;; b" :=
  (match a with Some p => b | None => None end)
  (at level 61, p pattern, a at next level, right associativity).

(** The [k] low bytes of [v], least-significant first. *)
Fixpoint le_bytes (k : nat) (v : Z) : list Z :=
  match k with
  | O => []
  | S k' => v mod 256 :: le_bytes k' (v / 256)
  end.

(** The number whose bytes, least-significant first, are [bs]. *)
Definition le_value (bs : list Z) : Z := fold_right (fun b acc => b + 256 * acc) 0 bs.

(** The presence bitmask of a field, its first byte on bit [bit]: a byte is
    present when it is not zero. *)
Fixpoint presence (bit : Z) (bs : list Z) : Z :=
  match bs with
  | [] => 0
  | b :: bs' => (if b =? 0 then 0 else 2 ^ bit) + presence (bit + 1) bs'
  end.

Definition present (bs : list Z) : list Z := filter (fun b => negb (b =? 0)) bs.

(** The length field of a copy: [0x10000] is written as zero. *)
Definition copy_length_field (len : nat) : Z :=
  if Z.of_nat len =? max_copy_length then 0 else Z.of_nat len.

(** Modelled from the spec: the encoder of one operation is part of
    [create_delta].  [copy_op := 0b1xxxxxxx offset_bytes(0..4)
    length_bytes(0..3)], the low bits of the opcode selecting the bytes that
    follow; [insert_op := 0byyyyyyy literal_bytes(y)]. *)
Definition encode_op (o : op) : list byte :=
  match o with
  | Copy offset len =>
      let ob := le_bytes 4 (Z.of_nat offset) in
      let lb := le_bytes 3 (copy_length_field len) in
      byte_of_Z (128 + presence 0 ob + presence 4 lb)
        :: map byte_of_Z (present ob ++ present lb)
  | Insert literal => byte_of_Z (Z.of_nat (length literal)) :: literal
  end.

Definition encode_ops (ops : list op) : list byte := concat (map encode_op ops).

(** The [k] bytes of a field whose first byte is selected by bit [bit] of
    [mask]; an absent byte contributes 0. *)
Fixpoint read_sparse (k : nat) (bit mask : Z) (s : list byte) : option (list Z * list byte) :=
  match k with
  | O => Some ([], s)
  | S k' =>
      if Z.testbit mask bit then
        match s with
        | [] => None
        | b :: s' =>
            ' (vs, rest) <- read_sparse k' (bit + 1) mask s' ;;
            Some (uchar b :: vs, rest)
        end
      else
        ' (vs, rest) <- read_sparse k' (bit + 1) mask s ;;
        Some (0 :: vs, rest)
  end.

(** Modelled from the spec: the reader of one operation belongs to the
    routine that applies a delta, which is outside [delta.h]. *)
Definition parse_op (s : list byte) : option (op * list byte) :=
  match s with
  | [] => None
  | c :: s' =>
      if 128 <=? uchar c then
        ' (ob, s1) <- read_sparse 4 0 (uchar c) s' ;;
        ' (lb, s2) <- read_sparse 3 4 (uchar c) s1 ;;
        let len := if le_value lb =? 0 then max_copy_length else le_value lb in
        Some (Copy (Z.to_nat (le_value ob)) (Z.to_nat len), s2)
      else if uchar c =? 0 then None
      else if (length s' <? Z.to_nat (uchar c))%nat then None
      else Some (Insert (firstn (Z.to_nat (uchar c)) s'), skipn (Z.to_nat (uchar c)) s')
  end.

(** Modelled from the spec: the operations of a stream read in order, one
    unit of fuel for each. *)
Fixpoint parse_ops (fuel : nat) (s : list byte) : option (list op) :=
  match s, fuel with
  | [], _ => Some []
  | _, O => None
  | _, S fuel' =>
      ' (o, rest) <- parse_op s ;;
      ' ops <- parse_ops fuel' rest ;;
      Some (o :: ops)
  end.

(** The effect of one operation on the source [src]. *)
Definition op_effect (src : list byte) (o : op) : option (list byte) :=
  match o with
  | Copy offset len =>
      if (offset + len <=? length src)%nat then Some (slice src offset (offset + len))
      else None
  | Insert literal => Some literal
  end.

(** Modelled from the spec: the effects of the operations, concatenated in
    order. *)
Fixpoint apply_ops (src : list byte) (ops : list op) : option (list byte) :=
  match ops with
  | [] => Some []
  | o :: ops' =>
      ' head <- op_effect src o ;;
      ' tail <- apply_ops src ops' ;;
      Some (head ++ tail)
  end.

(** [#define DELTA_SIZE_MIN 4]: the smallest possible delta size. *)
Definition DELTA_SIZE_MIN : nat := 4.

(** Modelled from the spec: applying a delta stream to its source, a routine
    that is outside [delta.h].  What [delta.h] fixes of it is kept: a stream
    shorter than [DELTA_SIZE_MIN] is no delta, and the two header sizes are
    read by calling [get_delta_hdr_size] twice on the stream, [top] at its
    end, the second call from the cursor the first one left.  The sizes are
    checked, and the effects of the operations that follow the header are
    concatenated in order. *)
Definition apply_delta (src stream : list byte) : option (list byte) :=
  if (length stream <? DELTA_SIZE_MIN)%nat then None
  else
    ' (source_size, c1) <- returned (get_delta_hdr_size stream 0 (length stream)) ;;
    ' (target_size, c2) <- returned (get_delta_hdr_size stream c1 (length stream)) ;;
    ' ops <- parse_ops (length stream - c2) (skipn c2 stream) ;;
    if negb (source_size =? Z.of_nat (length src)) then None
    else
      ' out <- apply_ops src ops ;;
      if Z.of_nat (length out) =? target_size then Some out else None.

(** ** Tuning and environment *)

Inductive build_error : Type := AllocationError | SizeExceeded.

Inductive result (A : Type) : Type :=
| Ok (a : A)
| Error (e : build_error).
Arguments Ok {A} a.
Arguments Error {A} e.

(** Modelled from the spec: what the description leaves to the implementer
    (the block stride [B], the content hash, the sizing of the hash table,
    the length under which a match is not worth a copy) and whether a request
    for memory is granted. *)
Record params : Type := mk_params {
  block_size : positive;
  block_hash : list byte -> Z;
  table_slots : nat -> positive;
  min_match : nat;
  alloc : nat -> bool }.

(** ** The match index *)

(** Modelled from the spec: one indexed block of the opaque index, its
    hash, the source it lies in and its position there. *)
Record index_entry : Type := mk_entry {
  entry_hash : Z;
  entry_src : source_info;
  entry_pos : nat }.

(** The block's offset within the aggregate source. *)
Definition entry_offset (e : index_entry) : nat :=
  (Source.agg_offset (entry_src e) + entry_pos e)%nat.

(** Modelled from the spec: [struct delta_index] is opaque in [delta.h].  A
    hash table whose buckets chain, in registration order, the blocks that
    share a slot, and the aggregate source length. *)
Record delta_index : Type := mk_index {
  src_size : nat;
  table : list (list index_entry) }.

Definition bucket_of (slots : nat) (h : Z) : nat := Z.to_nat (h mod Z.of_nat slots).

Fixpoint bucket_add (k : nat) (e : index_entry) (tbl : list (list index_entry))
  : list (list index_entry) :=
  match tbl, k with
  | [], _ => []
  | b :: tbl', O => (b ++ [e]) :: tbl'
  | b :: tbl', S k' => b :: bucket_add k' e tbl'
  end.

(** Modelled from the spec: registering a block chains it at the end of the
    bucket of its hash. *)
Definition table_insert (tbl : list (list index_entry)) (e : index_entry)
  : list (list index_entry) :=
  bucket_add (bucket_of (length tbl) (entry_hash e)) e tbl.

(** Modelled from the spec: the blocks registered under hash [h], earliest
    first. *)
Definition table_lookup (tbl : list (list index_entry)) (h : Z) : list index_entry :=
  filter (fun e => entry_hash e =? h) (nth (bucket_of (length tbl) h) tbl []).

Definition table_entries (tbl : list (list index_entry)) : list index_entry :=
  concat tbl.

(** The [B] bytes of [bytes] at [p], fewer at the end of the buffer. *)
Definition block_at (B : nat) (bytes : list byte) (p : nat) : list byte :=
  firstn B (skipn p bytes).

(** The start of every block of a buffer of [len] bytes, the final short one
    included. *)
Definition block_offsets (B : nat) (len : nat) : list nat :=
  map (fun k => (k * B)%nat) (seq 0 ((len + B - 1) / B)).

(** Modelled from the spec: the blocks of one source, each hashed over its
    bytes. *)
Definition source_entries (tn : params) (src : source_info) : list index_entry :=
  let B := Pos.to_nat (block_size tn) in
  map (fun p => mk_entry (block_hash tn (block_at B (source_bytes src) p)) src p)
      (block_offsets B (length (source_bytes src))).

(** The entries of an index built over [src] on top of [old]: those of the
    prior index, bucket by bucket, then the blocks of [src]. *)
Definition index_entries (tn : params) (src : source_info)
    (old : option delta_index) : list index_entry :=
  match old with
  | Some o => table_entries (table o)
  | None => []
  end ++ source_entries tn src.

(** The number of table slots asked of the allocator. *)
Definition index_request (tn : params) (src : source_info)
    (old : option delta_index) : nat :=
  Pos.to_nat (table_slots tn (length (index_entries tn src old))).

(** Modelled from the spec: [create_delta_index] is declared in [delta.h]
    and defined elsewhere.  The entries of the prior index, if any, come
    first and are rehashed into a table sized for the whole; the blocks of
    [src] follow.  The only failure is the refusal of the table's memory. *)
Definition create_delta_index (tn : params) (src : source_info)
    (old : option delta_index) : result delta_index :=
  let prior_size := match old with Some o => src_size o | None => O end in
  let slots := index_request tn src old in
  if alloc tn slots
  then Ok (mk_index (prior_size + Source.size src)
                    (fold_left table_insert (index_entries tn src old)
                               (repeat [] slots)))
  else Error AllocationError.

(** ** The delta builder *)

(** The number of leading bytes on which [a] and [b] agree. *)
Fixpoint common_prefix (a b : list byte) : nat :=
  match a, b with
  | x :: a', y :: b' => if Byte.eqb x y then S (common_prefix a' b') else O
  | _, _ => O
  end.

(** A candidate after extension: the aggregate offset where the matched span
    starts, the bytes taken back from the pending literal run and the bytes
    matched from the cursor on. *)
Record found : Type := mk_found {
  found_offset : nat;
  found_back : nat;
  found_fwd : nat }.

Definition span (m : found) : nat := (found_back m + found_fwd m)%nat.

(** Modelled from the spec: the candidate [e] at cursor [t], extended
    forward while source and target agree and backward into the pending
    literal run, kept when at least [B] bytes agree from the cursor on and
    the span can be addressed by a copy. *)
Definition try_entry (tn : params) (target : list byte) (t : nat)
    (pending : list byte) (e : index_entry) : option found :=
  let bytes := source_bytes (entry_src e) in
  let fwd := common_prefix (skipn (entry_pos e) bytes) (skipn t target) in
  let back := common_prefix (rev (firstn (entry_pos e) bytes)) (rev pending) in
  if (Pos.to_nat (block_size tn) <=? fwd)%nat
     && (Z.of_nat (entry_offset e + fwd) <=? offset_limit)
  then Some (mk_found (entry_offset e - back) back fwd)
  else None.

(** The longer of two candidates, the earlier one on a tie. *)
Definition longer (best : option found) (c : option found) : option found :=
  match best, c with
  | Some b, Some m => if (span b <? span m)%nat then Some m else Some b
  | Some b, None => Some b
  | None, _ => c
  end.

(** Modelled from the spec: the match at cursor [t].  No lookup when fewer
    than [B] bytes remain; otherwise the longest kept candidate among the
    blocks registered under the hash of the next [B] bytes, unless it is
    shorter than the threshold. *)
Definition best_match (tn : params) (idx : delta_index) (target : list byte)
    (t : nat) (pending : list byte) : option found :=
  let B := Pos.to_nat (block_size tn) in
  if (length target <? t + B)%nat then None
  else
    let candidates := table_lookup (table idx) (block_hash tn (block_at B target t)) in
    match fold_left longer (map (try_entry tn target t pending) candidates) None with
    | Some m => if (min_match tn <=? span m)%nat then Some m else None
    | None => None
    end.

(** Modelled from the spec: a pending literal run as insert operations of
    at most 127 bytes. *)
Equations? inserts (literal : list byte) : list op by wf (length literal) lt :=
inserts [] := [];
inserts (b :: l) :=
  Insert (firstn max_insert_length (b :: l))
    :: inserts (skipn max_insert_length (b :: l)).
Proof.
  change (length (skipn 126 l) < S (length l))%nat.
  rewrite length_skipn. lia.
Qed.

(** Modelled from the spec: a matched span as copy operations of at most
    [0x10000] bytes. *)
Equations? copies (offset len : nat) : list op by wf len lt :=
copies offset 0 := [];
copies offset (S n) :=
  Copy offset (Z.to_nat (Z.min (Z.of_nat (S n)) max_copy_length))
    :: copies (offset + Z.to_nat (Z.min (Z.of_nat (S n)) max_copy_length))
              (S n - Z.to_nat (Z.min (Z.of_nat (S n)) max_copy_length)).
Proof.
  change (S n - Z.to_nat (Z.min (Z.of_nat (S n)) max_copy_length) < S n)%nat.
  unfold max_copy_length. lia.
Qed.

(** [max_size], when set, is exceeded by a stream of [len] bytes. *)
Definition exceeds (max_size len : nat) : bool :=
  negb (max_size =? 0)%nat && (max_size <? len)%nat.

(** Modelled from the spec: one operation is appended, then the cutoff is
    checked. *)
Definition emit (max_size : nat) (out : list byte) (o : op) : result (list byte) :=
  if exceeds max_size (length (out ++ encode_op o)) then Error SizeExceeded
  else Ok (out ++ encode_op o).

(** Operations appended one after the other, up to the first one that
    exceeds the cutoff. *)
Fixpoint emit_all (max_size : nat) (out : list byte) (ops : list op)
  : result (list byte) :=
  match ops with
  | [] => Ok out
  | o :: ops' =>
      match emit max_size out o with
      | Ok out' => emit_all max_size out' ops'
      | Error e => Error e
      end
  end.

(** Termination of the pass: a match moves the cursor.  What holds of every
    candidate holds of the one chosen. *)
Lemma fold_longer_ind (P : found -> Prop) (cs : list (option found)) :
  Forall (fun c => forall m, c = Some m -> P m) cs ->
  forall best m, (forall b, best = Some b -> P b) ->
  fold_left longer cs best = Some m -> P m.
Proof.
  induction 1 as [|c cs Hc _ IH]; intros best m Hbest; cbn [fold_left].
  - auto.
  - apply IH. intros b. destruct best as [b0|], c as [m0|]; cbn [longer].
    + destruct (span b0 <? span m0)%nat; intros [= <-]; auto.
    + intros [= <-]; auto.
    + intros [= <-]; auto.
    + discriminate.
Qed.

Lemma best_match_fwd_pos (tn : params) (idx : delta_index) (target : list byte)
    (t : nat) (pending : list byte) (m : found) :
  best_match tn idx target t pending = Some m -> (0 < found_fwd m)%nat.
Proof.
  unfold best_match. destruct (length target <? _)%nat; [discriminate|].
  destruct (fold_left _ _ _) as [m0|] eqn:E; [|discriminate].
  destruct (min_match tn <=? span m0)%nat; [|discriminate]. intros [= <-].
  revert E. apply (fold_longer_ind (fun m => 0 < found_fwd m)%nat); [|discriminate].
  apply Forall_forall. intros c Hc m Hm. subst c.
  apply in_map_iff in Hc as (e & He & _). unfold try_entry in He.
  destruct (Nat.leb_spec (Pos.to_nat (block_size tn))
              (common_prefix (skipn (entry_pos e) (source_bytes (entry_src e)))
                             (skipn t target))) as [Hle|]; [|discriminate].
  destruct (_ <=? offset_limit); [|discriminate].
  injection He as <-. cbn [found_fwd]. lia.
Qed.

(** Modelled from the spec: the greedy pass of the delta builder over the
    target, from cursor [t], with the literal run [pending] not yet written
    and [out] the stream so far.  At the end of the target the pending run is
    flushed.  Where a match is found, the run (less what the match took back)
    is flushed, the copy is written and the cursor moves past the match;
    elsewhere the byte under the cursor joins the run. *)
Equations? scan (tn : params) (idx : delta_index) (max_size : nat)
    (target : list byte) (t : nat) (pending out : list byte) : result (list byte)
  by wf (length target - t)%nat lt :=
scan tn idx max_size target t pending out with inspect (nth_error target t) := {
  | exist _ None _ => emit_all max_size out (inserts pending)
  | exist _ (Some b) _ with inspect (best_match tn idx target t pending) := {
    | exist _ None _ => scan tn idx max_size target (S t) (pending ++ [b]) out
    | exist _ (Some m) _ with
        emit_all max_size out
          (inserts (firstn (length pending - found_back m) pending)
             ++ copies (found_offset m) (span m)) := {
      | Error e => Error e
      | Ok out' => scan tn idx max_size target (t + found_fwd m) [] out' } } }.
Proof.
  all: match goal with
       | H : nth_error _ _ = Some _ |- _ =>
           pose proof (proj1 (nth_error_Some target t) ltac:(rewrite H; discriminate))
       end.
  all: try match goal with
           | H : best_match _ _ _ _ _ = Some _ |- _ =>
               pose proof (best_match_fwd_pos _ _ _ _ _ _ H)
           end.
  all: lia.
Qed.

(** Modelled from the spec: [create_delta] is declared in [delta.h] and
    defined elsewhere.  The header (aggregate source length, then target
    length), the greedy pass, the cutoff on the finished stream, and the
    memory of the buffer handed back. *)
Definition create_delta (tn : params) (idx : delta_index) (target : list byte)
    (max_size : nat) : result (list byte) :=
  let header := encode_varint (Z.of_nat (src_size idx))
                  ++ encode_varint (Z.of_nat (length target)) in
  match scan tn idx max_size target 0 [] header with
  | Error e => Error e
  | Ok stream =>
      if exceeds max_size (length stream) then Error SizeExceeded
      else if alloc tn (length stream) then Ok stream
      else Error AllocationError
  end.

(** The source descriptor of a whole buffer that stands alone. *)
Definition whole_source (bytes : list byte) : source_info :=
  Source.mk bytes (length bytes) 0.

(** A choice of the open parameters, for examples: 4-byte blocks, the sum of
    a block's bytes as its hash, one slot for every four entries, no match
    discarded, every request for memory granted. *)
Definition example_params : params :=
  mk_params 4 (fun block => fold_right (fun b acc => uchar b + acc) 0 block)
            (fun n => Pos.of_nat (S (n / 4))) 0 (fun _ => true).

(** ** Predicates of the proofs *)



(** Every block sits in the bucket of its hash. *)
Definition table_wf (tbl : list (list index_entry)) : Prop :=
  forall j e, In e (nth j tbl []) -> bucket_of (length tbl) (entry_hash e) = j.

(** The entry [e] is the block number [k] of [src]: it starts at [k * B],
    within the source, and is filed under the hash of the bytes there. *)
Definition block_entry (tn : params) (src : source_info) (k : nat)
    (e : index_entry) : Prop :=
  let B := Pos.to_nat (block_size tn) in
  (k * B < length (source_bytes src))%nat /\
  entry_src e = src /\
  entry_pos e = (k * B)%nat /\
  entry_hash e = block_hash tn (block_at B (source_bytes src) (k * B)).


(** The scenario of the description: ["abcdefghij"] as source,
    ["xxabcdefghijyy"] as target. *)
Definition example_source : list byte :=
  [x61; x62; x63; x64; x65; x66; x67; x68; x69; x6a].

Definition example_target : list byte :=
  [x78; x78; x61; x62; x63; x64; x65; x66; x67; x68; x69; x6a; x79; x79].

(** The index of the scenario's source, and a second source,
    ["0123456789abcdef"], chained after it. *)
Definition example_index : delta_index :=
  match create_delta_index example_params (whole_source example_source) None with
  | Ok idx => idx
  | Error _ => mk_index 0 []
  end.

Definition example_second_source : source_info :=
  Source.mk [x30; x31; x32; x33; x34; x35; x36; x37; x38; x39;
             x61; x62; x63; x64; x65; x66] 16 10.

Definition example_chained_index : delta_index :=
  match create_delta_index example_params example_second_source (Some example_index) with
  | Ok idx => idx
  | Error _ => mk_index 0 []
  end.

(** * Properties of the header reader *)

(** ** The loop, one iteration at a time *)

Lemma hdr_loop_body (buf : list byte) (top data : nat) (size i : Z) :
  hdr_loop buf top data size i =
  match nth_error buf data with
  | None => mk_run None [data] 1 true
  | Some cmd =>
      if loop_again (uchar cmd) (S data) top
      then again data (step_defined (low7 (uchar cmd)) i)
             (hdr_loop buf top (S data) (accumulate size (uchar cmd) i) (wrap_int (i + 7)))
      else mk_run (Some (accumulate size (uchar cmd) i, S data)) [data] 1
             (step_defined (low7 (uchar cmd)) i)
  end.
Proof.
  funelim (hdr_loop buf top data size i).
  all: repeat match goal with
              | H : nth_error _ _ = _ |- _ => rewrite H
              | H : loop_again _ _ _ = _ |- _ => rewrite H
              end; reflexivity.
Qed.

Lemma loop_again_true (cmd : Z) (data top : nat) :
  loop_again cmd data top = true -> Z.land cmd 128 <> 0 /\ (data < top)%nat.
Proof.
  unfold loop_again. intros H. apply andb_prop in H as [Hc Hd].
  apply negb_true_iff, Z.eqb_neq in Hc. apply Nat.ltb_lt in Hd. auto.
Qed.

Lemma loop_again_false (cmd : Z) (data top : nat) :
  loop_again cmd data top = false -> Z.land cmd 128 = 0 \/ (top <= data)%nat.
Proof.
  unfold loop_again. intros H. apply andb_false_iff in H as [Hc|Hd].
  - left. apply negb_false_iff, Z.eqb_eq in Hc. exact Hc.
  - right. apply Nat.ltb_ge in Hd. exact Hd.
Qed.

(** Brings the facts behind the loop test of the current iteration into the
    context. *)
Ltac loop_test :=
  match goal with
  | H : loop_again _ _ _ = true |- _ =>
      let Hc := fresh "Hcont" in
      let Hd := fresh "Hroom" in
      destruct (loop_again_true _ _ _ H) as [Hc Hd]
  | H : loop_again _ _ _ = false |- _ =>
      let Hs := fresh "Hstop" in
      pose proof (loop_again_false _ _ _ H) as Hs
  end.

(** ** Control flow: reads, iterations and the cursor

    None of this depends on the bytes' values beyond their high bits, nor on
    [size]. *)

Section Control.
Variable buf : list byte.
Variable top : nat.

Lemma loop_reads_consecutive (data : nat) (size i : Z) :
  reads (hdr_loop buf top data size i) =
  seq data (iterations (hdr_loop buf top data size i)).
Proof.
  funelim (hdr_loop buf top data size i); try reflexivity.
  cbn [again reads iterations seq]. f_equal. assumption.
Qed.

Lemma loop_iterations_pos (data : nat) (size i : Z) :
  (1 <= iterations (hdr_loop buf top data size i))%nat.
Proof.
  rewrite hdr_loop_body.
  destruct (nth_error buf data); [destruct (loop_again _ _ _)|]; cbn; lia.
Qed.

Lemma loop_iterations_bound (data : nat) (size i : Z) :
  (iterations (hdr_loop buf top data size i) <= Nat.max 1 (top - data))%nat.
Proof.
  funelim (hdr_loop buf top data size i); cbn [again iterations]; try lia.
  loop_test. lia.
Qed.

Lemma loop_cursor (data : nat) (size i : Z) (v : Z) (c : nat) :
  returned (hdr_loop buf top data size i) = Some (v, c) ->
  c = (data + iterations (hdr_loop buf top data size i))%nat.
Proof.
  funelim (hdr_loop buf top data size i); cbn [again returned iterations].
  - discriminate.
  - intros Hr. match goal with IH : forall _ _, _ -> _ |- _ => rewrite (IH _ _ Hr) end. lia.
  - intros [= _ <-]. lia.
Qed.

Lemma loop_returns (data : nat) (size i : Z) :
  (data < length buf)%nat -> (top <= length buf)%nat ->
  ordinary_return (hdr_loop buf top data size i).
Proof.
  unfold ordinary_return.
  funelim (hdr_loop buf top data size i); cbn [again returned]; intros Hd Ht.
  - match goal with
    | H : nth_error _ _ = None |- _ => pose proof (proj1 (nth_error_None _ _) H)
    end.
    lia.
  - match goal with IH : _ -> _ -> exists _ _, _ |- _ => apply IH; [|assumption] end.
    loop_test. lia.
  - eauto.
Qed.

Lemma loop_stops_at_top (data : nat) (size i : Z) :
  (top <= data)%nat -> iterations (hdr_loop buf top data size i) = 1%nat.
Proof.
  intros Hle. rewrite hdr_loop_body.
  destruct (nth_error buf data) as [cmd|]; [|reflexivity].
  replace (loop_again (uchar cmd) (S data) top) with false; [reflexivity|].
  unfold loop_again. symmetry. apply andb_false_intro2. apply Nat.ltb_ge. lia.
Qed.
End Control.

(** ** Integer conversions *)

Lemma uchar_range (b : byte) : 0 <= uchar b < 256.
Proof.
  unfold uchar. pose proof (Byte.to_N_bounded b). lia.
Qed.

Lemma uchar_byte_of_Z (z : Z) : 0 <= z < 256 -> uchar (byte_of_Z z) = z.
Proof.
  intros Hz. unfold uchar, byte_of_Z.
  rewrite Z.mod_small by assumption.
  destruct (Byte.of_N (Z.to_N z)) as [b|] eqn:E.
  - apply Byte.to_of_N in E. rewrite E. lia.
  - apply Byte.of_N_None_iff in E. lia.
Qed.

Lemma low7_uchar (b : byte) : low7 (uchar b) = uchar b mod 128.
Proof. destruct b; reflexivity. Qed.

Lemma continuation_bit (b : byte) : Z.land (uchar b) 128 = 0 <-> uchar b < 128.
Proof. destruct b; vm_compute; split; congruence. Qed.

Lemma wrap_int_small (z : Z) : - 2 ^ 31 <= z < 2 ^ 31 -> wrap_int z = z.
Proof.
  intros Hz. unfold wrap_int, int_bits. change (32 - 1) with 31.
  rewrite Z.mod_small; lia.
Qed.

Lemma shl_defined_spec (a i : Z) :
  shl_defined a i = true <-> 0 <= i < 32 /\ 0 <= a /\ a * 2 ^ i < 2 ^ 31.
Proof.
  unfold shl_defined, int_bits. change (32 - 1) with 31.
  rewrite !andb_true_iff, !Z.leb_le, !Z.ltb_lt.
  split.
  - intros [[[H0 H1] H2] H3]. rewrite Z.shiftl_mul_pow2 in H3 by assumption. lia.
  - intros [[H0 H1] [H2 H3]]. rewrite Z.shiftl_mul_pow2 by assumption. lia.
Qed.

(** Inside ISO C's fragment the [int] shift, converted to [unsigned long], is
    the mathematical product. *)
Lemma shl_defined_value (a i : Z) :
  shl_defined a i = true -> to_ulong (shl_int a i) = a * 2 ^ i.
Proof.
  intros H. apply shl_defined_spec in H as (Hi & Ha & Hlt).
  unfold shl_int, to_ulong, int_bits, ulong_bits.
  rewrite (Z.mod_small i) by lia.
  rewrite Z.shiftl_mul_pow2 by lia.
  assert (0 <= a * 2 ^ i) by (apply Z.mul_nonneg_nonneg; lia).
  rewrite wrap_int_small by lia.
  apply Z.mod_small. lia.
Qed.

(** [|=] into bits that are still clear is an addition. *)
Lemma lor_above (size a i : Z) :
  0 <= i -> 0 <= size < 2 ^ i -> 0 <= a ->
  Z.lor size (a * 2 ^ i) = size + a * 2 ^ i.
Proof.
  intros Hi Hs Ha.
  rewrite <- Z.shiftl_mul_pow2 by assumption.
  rewrite <- Z.lxor_lor, <- Z.add_nocarry_lxor; try reflexivity.
  all: apply Z.bits_inj'; intros k Hk; rewrite Z.land_spec, Z.bits_0.
  all: destruct (Z.lt_ge_cases k i) as [Hlt|Hge].
  all: try (rewrite (Z.shiftl_spec_low a i k) by assumption; apply andb_false_r).
  all: destruct (Z.eq_dec size 0) as [->|Hnz]; [rewrite Z.bits_0; reflexivity|].
  all: rewrite (Z.bits_above_log2 size k); [reflexivity|lia|].
  all: apply Z.lt_le_trans with i; [|assumption].
  all: apply Z.log2_lt_pow2; lia.
Qed.

Lemma to_ulong_range (z : Z) : 0 <= to_ulong z < 2 ^ 64.
Proof. unfold to_ulong, ulong_bits. apply Z.mod_pos_bound. lia. Qed.

Lemma lor_ulong (a b : Z) :
  0 <= a < 2 ^ 64 -> 0 <= b < 2 ^ 64 -> 0 <= Z.lor a b < 2 ^ 64.
Proof.
  intros Ha Hb. split; [apply Z.lor_nonneg; lia|].
  destruct (Z.eq_dec (Z.lor a b) 0) as [->|Hnz]; [lia|].
  assert (0 < Z.lor a b) by (pose proof (proj2 (Z.lor_nonneg a b)); lia).
  apply Z.log2_lt_pow2; [assumption|].
  rewrite Z.log2_lor by lia.
  destruct (Z.eq_dec a 0) as [->|Hane], (Z.eq_dec b 0) as [->|Hbne];
    cbn [Z.log2]; try lia.
  - rewrite Z.max_r by apply Z.log2_nonneg. apply Z.log2_lt_pow2; lia.
  - rewrite Z.max_l by apply Z.log2_nonneg. apply Z.log2_lt_pow2; lia.
  - apply Z.max_lub_lt; apply Z.log2_lt_pow2; lia.
Qed.

Lemma accumulate_ulong (size cmd i : Z) :
  0 <= size < 2 ^ 64 -> 0 <= accumulate size cmd i < 2 ^ 64.
Proof.
  intros Hs. unfold accumulate. apply lor_ulong; [assumption|apply to_ulong_range].
Qed.

Lemma accumulate_defined (size cmd i : Z) :
  0 <= i -> 0 <= size < 2 ^ i -> shl_defined (low7 cmd) i = true ->
  accumulate size cmd i = size + low7 cmd * 2 ^ i.
Proof.
  intros Hi Hs Hd. unfold accumulate. rewrite shl_defined_value by assumption.
  apply shl_defined_spec in Hd. apply lor_above; lia.
Qed.

(** ** Bounds of one call *)

(** C3. Bounded decode: called with [*datap] strictly before [top],
    [get_delta_hdr_size] dereferences only offsets in [[*datap, top)], and
    the cursor it stores back is at most [top]; with [top] inside the buffer
    or at its end the call returns. *)
Theorem bounded_decode (buf : list byte) (datap top : nat) :
  (datap < top)%nat ->
  let r := get_delta_hdr_size buf datap top in
  Forall (fun p => (datap <= p < top)%nat) (reads r) /\
  (forall v c, returned r = Some (v, c) -> (c <= top)%nat) /\
  ((top <= length buf)%nat -> ordinary_return r).
Proof.
  intros Hlt r. subst r. unfold get_delta_hdr_size.
  pose proof (loop_iterations_bound buf top datap 0 0) as Hb.
  rewrite Nat.max_r in Hb by lia.
  split; [|split].
  - rewrite loop_reads_consecutive. apply Forall_forall.
    intros p Hp. apply in_seq in Hp. lia.
  - intros v c Hr. apply loop_cursor in Hr. lia.
  - intros Htop. apply loop_returns; lia.
Qed.

Lemma bounded_decode_witness :
  Forall (fun p => (1 <= p < 3)%nat) (reads (get_delta_hdr_size [x00; xff; xff; xff] 1 3)) /\
  (forall v c, returned (get_delta_hdr_size [x00; xff; xff; xff] 1 3) = Some (v, c) ->
               (c <= 3)%nat) /\
  ((3 <= length [x00; xff; xff; xff])%nat ->
   ordinary_return (get_delta_hdr_size [x00; xff; xff; xff] 1 3)).
Proof.
  apply (bounded_decode [x00; xff; xff; xff] 1 3). lia.
Defined.

(** C7. Decoder termination: the embedding is a total function, and a call
    with [*datap] strictly before [top] executes the loop body at most
    [top - *datap] times, dereferences at most that many bytes and advances
    the cursor by at most that much, whatever the buffer holds; with [top]
    inside the buffer or at its end it returns. *)
Theorem decoder_terminates (buf : list byte) (datap top : nat) :
  (datap < top)%nat ->
  exists r, get_delta_hdr_size buf datap top = r /\
    (iterations r <= top - datap)%nat /\
    (length (reads r) <= top - datap)%nat /\
    (forall v c, returned r = Some (v, c) -> (datap <= c /\ c - datap <= top - datap)%nat) /\
    ((top <= length buf)%nat -> ordinary_return r).
Proof.
  intros Hlt. eexists; split; [reflexivity|]. unfold get_delta_hdr_size.
  pose proof (loop_iterations_bound buf top datap 0 0) as Hb.
  rewrite Nat.max_r in Hb by lia.
  split; [exact Hb|split; [|split]].
  - rewrite loop_reads_consecutive, length_seq. exact Hb.
  - intros v c Hr. apply loop_cursor in Hr. lia.
  - intros Htop. apply loop_returns; lia.
Qed.

Lemma decoder_terminates_witness :
  exists r, get_delta_hdr_size [xff; xff; xff; xff; xff; xff; xff] 2 6 = r /\
    (iterations r <= 6 - 2)%nat /\
    (length (reads r) <= 6 - 2)%nat /\
    (forall v c, returned r = Some (v, c) -> (2 <= c /\ c - 2 <= 6 - 2)%nat) /\
    ((6 <= length [xff; xff; xff; xff; xff; xff; xff])%nat -> ordinary_return r).
Proof.
  apply (decoder_terminates [xff; xff; xff; xff; xff; xff; xff] 2 6). lia.
Defined.


(** ** The value accumulated *)

Lemma skipn_nth_error {A : Type} (l : list A) (k : nat) (x : A) :
  nth_error l k = Some x -> skipn k l = x :: skipn (S k) l.
Proof.
  revert l. induction k as [|k IH]; intros [|y l] Hk; try discriminate.
  - injection Hk as ->. reflexivity.
  - cbn [nth_error] in Hk. apply IH in Hk. exact Hk.
Qed.

Lemma slice_cons (buf : list byte) (data c : nat) (b : byte) :
  nth_error buf data = Some b -> (data < c)%nat ->
  slice buf data c = b :: slice buf (S data) c.
Proof.
  intros Hb Hlt. unfold slice. rewrite (skipn_nth_error _ _ _ Hb).
  replace (c - data)%nat with (S (c - S data)) by lia. reflexivity.
Qed.

Lemma slice_one (buf : list byte) (data : nat) (b : byte) :
  nth_error buf data = Some b -> slice buf data (S data) = [b].
Proof.
  intros Hb. rewrite (slice_cons _ _ _ _ Hb) by lia.
  unfold slice. rewrite Nat.sub_diag. reflexivity.
Qed.

Lemma slice_middle (pre l post : list byte) :
  slice (pre ++ l ++ post) (length pre) (length pre + length l) = l.
Proof.
  unfold slice. rewrite skipn_app, Nat.sub_diag, skipn_all. cbn [app skipn].
  replace (length pre + length l - length pre)%nat with (length l + 0)%nat by lia.
  rewrite firstn_app_2. cbn [firstn]. apply app_nil_r.
Qed.

(** As long as the arithmetic stays within ISO C, the loop adds to [size] the
    number denoted by the 7-bit groups it consumes, shifted by [i]: it
    accumulates [(byte & 0x7F) << (7 * k)]. *)
Lemma loop_value (buf : list byte) (top data : nat) (size i : Z) :
  0 <= i -> 0 <= size < 2 ^ i ->
  arith_defined (hdr_loop buf top data size i) = true ->
  forall v c, returned (hdr_loop buf top data size i) = Some (v, c) ->
  v = size + groups_value (slice buf data c) * 2 ^ i.
Proof.
  funelim (hdr_loop buf top data size i);
    cbn [again returned arith_defined]; intros Hi Hs Hd v c Hr.
  - discriminate.
  - apply andb_prop in Hd as [Hstep Hrest].
    apply andb_prop in Hstep as [Hshl Hinc]. apply Z.ltb_lt in Hinc.
    change (2 ^ (int_bits - 1)) with (2 ^ 31) in Hinc.
    pose proof (loop_cursor _ _ _ _ _ _ _ Hr) as Hc.
    pose proof (proj1 (shl_defined_spec _ _) Hshl) as (_ & _ & Hfit).
    pose proof (Z.mod_pos_bound (uchar cmd) 128 eq_refl) as Hm.
    assert (Hw : wrap_int (i + 7) = i + 7) by (apply wrap_int_small; lia).
    assert (Ha : accumulate size (uchar cmd) i = size + uchar cmd mod 128 * 2 ^ i)
      by (rewrite accumulate_defined, low7_uchar by assumption; reflexivity).
    rewrite Hw, Ha in *.
    match goal with
    | IH : _ -> _ -> _ -> forall _ _, _ -> _ |- _ =>
        rewrite (IH ltac:(lia) ltac:(rewrite Z.pow_add_r by lia; nia) Hrest v c Hr)
    end.
    match goal with
    | H : nth_error _ _ = Some _ |- _ => rewrite (slice_cons _ _ _ _ H) by lia
    end.
    cbn [groups_value]. rewrite Z.pow_add_r by lia. ring.
  - injection Hr as <- <-.
    apply andb_prop in Hd as [Hshl _].
    rewrite accumulate_defined, low7_uchar by assumption.
    match goal with
    | H : nth_error _ _ = Some _ |- _ => rewrite (slice_one _ _ _ H)
    end.
    cbn [groups_value]. ring.
Qed.

Lemma loop_ulong (buf : list byte) (top data : nat) (size i : Z) :
  0 <= size < 2 ^ 64 ->
  forall v c, returned (hdr_loop buf top data size i) = Some (v, c) ->
  0 <= v < 2 ^ 64.
Proof.
  funelim (hdr_loop buf top data size i); cbn [again returned]; intros Hs v c Hr.
  - discriminate.
  - match goal with
    | IH : _ -> forall _ _, _ -> _ |- _ => apply (IH (accumulate_ulong _ _ _ Hs) v c Hr)
    end.
  - injection Hr as <- <-. apply accumulate_ulong. exact Hs.
Qed.

(** On a run of continuation bytes that reaches [top], the loop reads every
    byte up to [top]. *)
Lemma loop_on_truncated (buf : list byte) (top data : nat) (size i : Z) :
  truncated buf data top ->
  iterations (hdr_loop buf top data size i) = (top - data)%nat.
Proof.
  unfold truncated.
  funelim (hdr_loop buf top data size i); cbn [again iterations];
    intros [Hrange Hcont].
  - match goal with
    | H : nth_error _ _ = None |- _ => pose proof (proj1 (nth_error_None _ _) H)
    end.
    lia.
  - loop_test.
    match goal with
    | IH : _ -> iterations _ = _ |- _ => rewrite IH
    end.
    + lia.
    + split; [lia|]. intros p b Hp. apply Hcont. lia.
  - loop_test. destruct Hstop as [Hz|Hle]; [|lia].
    exfalso. eapply Hcont; [|eassumption|exact Hz]. lia.
Qed.

(** ** Truncated headers *)

(** C2, as stated, does not hold: on a buffer that ends inside a varint the
    call returns a size like any other.  The one-byte buffer [0x81] with
    [top] right after it is truncated, and the call returns size 1 with the
    cursor at 1, exactly what it returns on the complete varint [0x01]. *)
Lemma truncated_header_returns_size :
  truncated [x81] 0 1 /\
  returned (get_delta_hdr_size [x81] 0 1) = Some (1, 1%nat) /\
  returned (get_delta_hdr_size [x01] 0 1) = Some (1, 1%nat).
Proof.
  split; [|split; reflexivity].
  split; [cbn; lia|].
  intros [|p] b Hp Hb; [|lia].
  injection Hb as <-. vm_compute. discriminate.
Qed.

(** C2, amended. When every byte from [*datap] up to [top] has its
    continuation bit set, [get_delta_hdr_size] reads each of those bytes
    once, stops at [top] and returns an ordinary [unsigned long] with the
    cursor equal to [top]: the number denoted by the 7-bit groups seen, as
    long as the shifts stay within ISO C.  No error is reported. *)
Theorem truncated_header_stops_at_top (buf : list byte) (datap top : nat) :
  truncated buf datap top ->
  let r := get_delta_hdr_size buf datap top in
  reads r = seq datap (top - datap) /\
  exists v, returned r = Some (v, top) /\
            0 <= v < 2 ^ 64 /\
            (arith_defined r = true -> v = groups_value (slice buf datap top)).
Proof.
  intros Ht r. subst r. unfold get_delta_hdr_size.
  pose proof (loop_on_truncated buf top datap 0 0 Ht) as Hit.
  split; [rewrite loop_reads_consecutive, Hit; reflexivity|].
  destruct Ht as [Hrange _].
  destruct (loop_returns buf top datap 0 0) as (v & c & Hr); try lia.
  pose proof (loop_cursor _ _ _ _ _ _ _ Hr) as Hc.
  rewrite Hit in Hc. replace c with top in * by lia.
  exists v. split; [exact Hr|split].
  - apply (loop_ulong buf top datap 0 0 ltac:(lia) v top Hr).
  - intros Hd.
    rewrite (loop_value buf top datap 0 0 ltac:(lia) ltac:(cbn; lia) Hd v top Hr).
    cbn. lia.
Qed.

Lemma truncated_header_stops_at_top_witness :
  reads (get_delta_hdr_size [x81; x82] 0 2) = seq 0 (2 - 0) /\
  exists v, returned (get_delta_hdr_size [x81; x82] 0 2) = Some (v, 2%nat) /\
            0 <= v < 2 ^ 64 /\
            (arith_defined (get_delta_hdr_size [x81; x82] 0 2) = true ->
             v = groups_value (slice [x81; x82] 0 2)).
Proof.
  apply (truncated_header_stops_at_top [x81; x82] 0 2).
  split; [cbn; lia|].
  intros [|[|p]] b Hp Hb; [| |lia]; injection Hb as <-; vm_compute; discriminate.
Defined.

(** X3. The value returned is the sum of [(byte & 0x7F) << (7 * k)] over the
    bytes consumed, whenever every shift and increment is defined in ISO C. *)
Theorem decoded_value (buf : list byte) (datap top : nat) (v : Z) (c : nat) :
  arith_defined (get_delta_hdr_size buf datap top) = true ->
  returned (get_delta_hdr_size buf datap top) = Some (v, c) ->
  v = groups_value (slice buf datap c).
Proof.
  unfold get_delta_hdr_size. intros Hd Hr.
  rewrite (loop_value buf top datap 0 0 ltac:(lia) ltac:(cbn; lia) Hd v c Hr).
  cbn. lia.
Qed.

Lemma decoded_value_witness :
  300 = groups_value (slice [x00; xac; x02; x07] 1 3).
Proof.
  apply (decoded_value [x00; xac; x02; x07] 1 4 300 3); reflexivity.
Defined.

(** ** The range of the value returned *)

Lemma sign_extended_shiftr (z : Z) :
  0 <= z < 2 ^ 64 ->
  (sign_extended z <-> Z.shiftr z 31 = 0 \/ Z.shiftr z 31 = 2 ^ 33 - 1).
Proof.
  intros Hz. unfold sign_extended. rewrite Z.shiftr_div_pow2 by lia.
  pose proof (Z.div_mod z (2 ^ 31) ltac:(lia)) as Hdm.
  pose proof (Z.mod_pos_bound z (2 ^ 31) ltac:(lia)) as Hm.
  change (2 ^ 64) with (2 ^ 33 * 2 ^ 31) in *.
  split; intros [H|H]; nia.
Qed.

Lemma int_as_ulong (x : Z) : sign_extended (to_ulong (wrap_int x)).
Proof.
  unfold sign_extended, to_ulong, wrap_int, int_bits, ulong_bits.
  change (32 - 1) with 31.
  pose proof (Z.mod_pos_bound (x + 2 ^ 31) (2 ^ 32) ltac:(lia)) as Hw.
  set (y := (x + 2 ^ 31) mod 2 ^ 32 - 2 ^ 31) in *.
  destruct (Z.lt_ge_cases y 0) as [Hneg|Hpos].
  - right. rewrite <- (Z.mod_unique y (2 ^ 64) (-1) (y + 2 ^ 64)); lia.
  - left. rewrite Z.mod_small; lia.
Qed.

Lemma sign_extended_lor (a b : Z) :
  sign_extended a -> sign_extended b -> sign_extended (Z.lor a b).
Proof.
  intros Ha Hb.
  assert (Ha64 : 0 <= a < 2 ^ 64) by (destruct Ha; lia).
  assert (Hb64 : 0 <= b < 2 ^ 64) by (destruct Hb; lia).
  apply sign_extended_shiftr in Ha; [|exact Ha64].
  apply sign_extended_shiftr in Hb; [|exact Hb64].
  apply sign_extended_shiftr; [apply lor_ulong; assumption|].
  rewrite Z.shiftr_lor.
  destruct Ha as [->| ->], Hb as [->| ->]; cbn; auto.
Qed.

Lemma accumulate_sign_extended (size cmd i : Z) :
  sign_extended size -> sign_extended (accumulate size cmd i).
Proof.
  intros Hs. apply sign_extended_lor; [exact Hs|apply int_as_ulong].
Qed.

Lemma loop_sign_extended (buf : list byte) (top data : nat) (size i : Z) :
  sign_extended size ->
  forall v c, returned (hdr_loop buf top data size i) = Some (v, c) ->
  sign_extended v.
Proof.
  funelim (hdr_loop buf top data size i); cbn [again returned]; intros Hs v c Hr.
  - discriminate.
  - match goal with
    | IH : _ -> forall _ _, _ -> _ |- _ =>
        apply (IH (accumulate_sign_extended _ _ _ Hs) v c Hr)
    end.
  - injection Hr as <- <-. apply accumulate_sign_extended. exact Hs.
Qed.

(** X5. Whatever the buffer holds, the value returned is an [int] converted
    to [unsigned long], below [2^31] or at least [2^64 - 2^31]: the groups
    are combined as [int]s, so no size from [2^31] up to [2^64 - 2^31 - 1] is
    ever read. *)
Theorem returned_size_range (buf : list byte) (datap top : nat) (v : Z) (c : nat) :
  returned (get_delta_hdr_size buf datap top) = Some (v, c) ->
  0 <= v < 2 ^ 31 \/ 2 ^ 64 - 2 ^ 31 <= v < 2 ^ 64.
Proof.
  unfold get_delta_hdr_size. intros Hr.
  apply (loop_sign_extended buf top datap 0 0 ltac:(left; lia) v c Hr).
Qed.

Lemma returned_size_range_witness :
  0 <= 300 < 2 ^ 31 \/ 2 ^ 64 - 2 ^ 31 <= 300 < 2 ^ 64.
Proof.
  apply (returned_size_range [xac; x02] 0 2 300 2). reflexivity.
Defined.

(** ** Reading back an encoded size *)

Lemma nth_error_middle {A : Type} (pre post : list A) (x : A) :
  nth_error (pre ++ x :: post) (length pre) = Some x.
Proof.
  rewrite nth_error_app2, Nat.sub_diag by lia. reflexivity.
Qed.

Lemma encode_fuel_enough (n : Z) :
  0 <= n -> n < 128 ^ (Z.of_nat (Z.to_nat (Z.log2 n)) + 1).
Proof.
  intros Hn. rewrite Z2Nat.id by apply Z.log2_nonneg.
  destruct (Z.eq_dec n 0) as [->|Hnz]; [reflexivity|].
  pose proof (Z.log2_spec n ltac:(lia)) as [_ Hlt].
  pose proof (Z.log2_nonneg n) as Hl.
  apply Z.lt_le_trans with (1 := Hlt).
  change 128 with (2 ^ 7). rewrite <- Z.pow_mul_r by lia.
  apply Z.pow_le_mono_r; lia.
Qed.

Lemma last_group_stops (n : Z) (data top : nat) :
  0 <= n < 128 -> loop_again (uchar (byte_of_Z n)) data top = false.
Proof.
  intros Hn. unfold loop_again.
  rewrite (proj2 (continuation_bit (byte_of_Z n)));
    [reflexivity|rewrite uchar_byte_of_Z; lia].
Qed.

Lemma inner_group_continues (m : Z) (data top : nat) :
  0 <= m < 128 -> (data < top)%nat ->
  loop_again (uchar (byte_of_Z (128 + m))) data top = true.
Proof.
  intros Hm Hd. unfold loop_again. apply andb_true_intro. split.
  - apply negb_true_iff, Z.eqb_neq. intros Hz.
    apply continuation_bit in Hz. rewrite uchar_byte_of_Z in Hz; lia.
  - apply Nat.ltb_lt. exact Hd.
Qed.

Lemma encode_groups_length_pos (fuel : nat) (n : Z) :
  (1 <= length (encode_groups fuel n))%nat.
Proof.
  destruct fuel; cbn [encode_groups]; [cbn; lia|].
  destruct (n <? 128); cbn [length]; lia.
Qed.

(** The encoder writes the number it was given. *)
Lemma groups_value_encode (fuel : nat) : forall n,
  0 <= n < 128 ^ (Z.of_nat fuel + 1) ->
  groups_value (encode_groups fuel n) = n.
Proof.
  induction fuel as [|fuel IH]; intros n Hn; cbn [encode_groups].
  - change (128 ^ (Z.of_nat 0 + 1)) with 128 in Hn.
    cbn [groups_value]. rewrite (Z.mod_small n 128) by lia.
    rewrite uchar_byte_of_Z by lia. rewrite Z.mod_small by lia. lia.
  - destruct (Z.ltb_spec n 128) as [Hlt|Hge]; cbn [groups_value].
    + rewrite uchar_byte_of_Z by lia. rewrite Z.mod_small by lia. lia.
    + pose proof (Z.mod_pos_bound n 128 eq_refl) as Hm.
      rewrite uchar_byte_of_Z by lia.
      rewrite IH.
      * replace ((128 + n mod 128) mod 128) with (n mod 128)
          by (apply Z.mod_unique with 1; lia).
        pose proof (Z.div_mod n 128). lia.
      * split; [apply Z.div_pos; lia|].
        apply Z.div_lt_upper_bound; [lia|].
        replace (Z.of_nat (S fuel) + 1) with (Z.succ (Z.of_nat fuel + 1)) in Hn by lia.
        rewrite Z.pow_succ_r in Hn by lia. lia.
Qed.

Lemma loop_on_last_group (n : Z) (pre post : list byte) (top : nat) (size i : Z) :
  0 <= n < 128 ->
  let r := hdr_loop (pre ++ [byte_of_Z n] ++ post) top (length pre) size i in
  iterations r = 1%nat /\
  returned r = Some (accumulate size n i, S (length pre)) /\
  (0 <= i < 32 -> 0 <= size < 2 ^ i -> n * 2 ^ i < 2 ^ 31 ->
   accumulate size n i = size + n * 2 ^ i /\ arith_defined r = true).
Proof.
  intros Hn r. subst r. rewrite hdr_loop_body. cbn [app].
  rewrite nth_error_middle, last_group_stops by assumption.
  cbn [iterations returned arith_defined]. rewrite uchar_byte_of_Z by lia.
  split; [reflexivity|split; [reflexivity|]].
  intros Hi Hs Hfit.
  assert (Hl : low7 n = n)
    by (rewrite <- (uchar_byte_of_Z n) at 1 by lia;
        rewrite low7_uchar, uchar_byte_of_Z, Z.mod_small; lia).
  assert (Hd : shl_defined (low7 n) i = true)
    by (apply shl_defined_spec; rewrite Hl; lia).
  unfold step_defined. rewrite accumulate_defined, Hd, Hl by (assumption || lia).
  split; [reflexivity|]. apply andb_true_intro; split; [reflexivity|].
  apply Z.ltb_lt. cbn. lia.
Qed.

(** The loop started on the first byte of an encoding, with anything before
    and after it in the buffer: it consumes exactly the encoding, and as long
    as the value still fits an [int] after shifting it adds that value. *)
Lemma loop_on_encoding (fuel : nat) : forall (n : Z) (pre post : list byte)
    (top : nat) (size i : Z),
  0 <= n < 128 ^ (Z.of_nat fuel + 1) ->
  (length pre + length (encode_groups fuel n) <= top)%nat ->
  let r := hdr_loop (pre ++ encode_groups fuel n ++ post) top (length pre) size i in
  let stop := (length pre + length (encode_groups fuel n))%nat in
  iterations r = length (encode_groups fuel n) /\
  (exists v, returned r = Some (v, stop)) /\
  (0 <= i < 32 -> 0 <= size < 2 ^ i -> n * 2 ^ i < 2 ^ 31 ->
   returned r = Some (size + n * 2 ^ i, stop) /\ arith_defined r = true).
Proof.
  assert (Hlast : forall n pre post top size i, 0 <= n < 128 ->
    let r := hdr_loop (pre ++ [byte_of_Z n] ++ post) top (length pre) size i in
    iterations r = 1%nat /\
    (exists v, returned r = Some (v, (length pre + 1)%nat)) /\
    (0 <= i < 32 -> 0 <= size < 2 ^ i -> n * 2 ^ i < 2 ^ 31 ->
     returned r = Some (size + n * 2 ^ i, (length pre + 1)%nat) /\
     arith_defined r = true)).
  { intros n pre post top size i Hn r. subst r.
    destruct (loop_on_last_group n pre post top size i Hn) as (Hit & Hr & Hv).
    rewrite Hr. replace (length pre + 1)%nat with (S (length pre)) by lia.
    split; [exact Hit|split; [eauto|]].
    intros Hi Hs Hfit. destruct (Hv Hi Hs Hfit) as [-> Hd]. auto. }
  induction fuel as [|fuel IH]; intros n pre post top size i Hn Htop r stop;
    subst r stop; cbn [encode_groups] in *.
  - change (128 ^ (Z.of_nat 0 + 1)) with 128 in Hn.
    rewrite Z.mod_small by assumption. apply Hlast. assumption.
  - destruct (Z.ltb_spec n 128) as [Hlt|Hge]; [apply Hlast; lia|].
    pose proof (Z.mod_pos_bound n 128 eq_refl) as Hm.
    pose proof (encode_groups_length_pos fuel (n / 128)) as Hlen.
    rewrite hdr_loop_body. cbn [app length] in *.
    rewrite nth_error_middle, inner_group_continues by (assumption || lia).
    cbn [again iterations returned arith_defined].
    set (b := byte_of_Z (128 + n mod 128)) in *.
    assert (Hb : uchar b = 128 + n mod 128) by (apply uchar_byte_of_Z; lia).
    assert (Hl : low7 (uchar b) = n mod 128)
      by (rewrite low7_uchar, Hb; symmetry; apply Z.mod_unique with 1; lia).
    replace (pre ++ b :: encode_groups fuel (n / 128) ++ post)
      with ((pre ++ [b]) ++ encode_groups fuel (n / 128) ++ post)
      by (rewrite <- app_assoc; reflexivity).
    replace (S (length pre)) with (length (pre ++ [b]))
      by (rewrite length_app; cbn; lia).
    replace (length pre + S (length (encode_groups fuel (n / 128))))%nat
      with (length (pre ++ [b]) + length (encode_groups fuel (n / 128)))%nat
      by (rewrite length_app; cbn; lia).
    assert (Hn' : 0 <= n / 128 < 128 ^ (Z.of_nat fuel + 1)).
    { split; [apply Z.div_pos; lia|].
      apply Z.div_lt_upper_bound; [lia|].
      replace (Z.of_nat (S fuel) + 1) with (Z.succ (Z.of_nat fuel + 1)) in Hn by lia.
      rewrite Z.pow_succ_r in Hn by lia. lia. }
    assert (Htop' : (length (pre ++ [b]) + length (encode_groups fuel (n / 128))
                     <= top)%nat) by (rewrite length_app; cbn; lia).
    destruct (IH (n / 128) (pre ++ [b]) post top
                (accumulate size (uchar b) i) (wrap_int (i + 7)) Hn' Htop')
      as (Hit & Hret & Hval).
    split; [rewrite Hit; reflexivity|split; [exact Hret|]].
    intros Hi Hs Hfit.
    pose proof (Z.div_mod n 128 ltac:(lia)) as Hdm.
    assert (Hq : 1 <= n / 128) by (apply Z.div_le_lower_bound; lia).
    assert (Hp : 0 < 2 ^ i) by (apply Z.pow_pos_nonneg; lia).
    assert (Hi7 : i + 7 < 31).
    { apply (Z.pow_lt_mono_r_iff 2); [lia|lia|].
      rewrite Z.pow_add_r by lia. nia. }
    assert (Hd : shl_defined (low7 (uchar b)) i = true)
      by (apply shl_defined_spec; rewrite Hl; nia).
    assert (Hw : wrap_int (i + 7) = i + 7) by (apply wrap_int_small; lia).
    assert (Ha : accumulate size (uchar b) i = size + n mod 128 * 2 ^ i)
      by (rewrite accumulate_defined, Hl by (assumption || lia); reflexivity).
    rewrite Hw, Ha in *.
    destruct Hval as [Hr Hdef].
    + lia.
    + rewrite Z.pow_add_r by lia. nia.
    + rewrite Z.pow_add_r by lia. nia.
    + rewrite Hr, Hdef. unfold step_defined. rewrite Hd.
      split; [|apply andb_true_intro; split; [|reflexivity];
               apply andb_true_intro; split; [reflexivity|apply Z.ltb_lt; cbn; lia]].
      f_equal. f_equal. rewrite Z.pow_add_r by lia. nia.
Qed.

(** X2. The cursor after reading an encoded size is the byte following the
    encoding, for every size: the bytes' low bits play no part in it. *)
Theorem cursor_past_encoding (n : Z) (pre post : list byte) (top : nat) :
  0 <= n -> (length pre + length (encode_varint n) <= top)%nat ->
  let r := get_delta_hdr_size (pre ++ encode_varint n ++ post) (length pre) top in
  reads r = seq (length pre) (length (encode_varint n)) /\
  exists v, returned r = Some (v, (length pre + length (encode_varint n))%nat).
Proof.
  intros Hn Htop r. subst r. unfold get_delta_hdr_size, encode_varint in *.
  destruct (loop_on_encoding _ n pre post top 0 0
              (conj Hn (encode_fuel_enough n Hn)) Htop) as (Hit & Hret & _).
  rewrite loop_reads_consecutive, Hit. auto.
Qed.

Lemma cursor_past_encoding_witness :
  reads (get_delta_hdr_size ([x07] ++ encode_varint (2 ^ 40) ++ [x09]) 1 8) =
    seq 1 (length (encode_varint (2 ^ 40))) /\
  exists v, returned (get_delta_hdr_size ([x07] ++ encode_varint (2 ^ 40) ++ [x09]) 1 8) =
            Some (v, (1 + length (encode_varint (2 ^ 40)))%nat).
Proof.
  apply (cursor_past_encoding (2 ^ 40) [x07] [x09] 8); [lia|vm_compute; lia].
Defined.

Lemma read_back_below_2_31 (n : Z) (pre post : list byte) (top : nat) :
  0 <= n < 2 ^ 31 -> (length pre + length (encode_varint n) <= top)%nat ->
  let r := get_delta_hdr_size (pre ++ encode_varint n ++ post) (length pre) top in
  returned r = Some (n, (length pre + length (encode_varint n))%nat) /\
  arith_defined r = true.
Proof.
  intros Hn Htop r. subst r. unfold get_delta_hdr_size, encode_varint in *.
  destruct (loop_on_encoding _ n pre post top 0 0
              (conj (proj1 Hn) (encode_fuel_enough n (proj1 Hn))) Htop)
    as (_ & _ & Hval).
  destruct Hval as [Hr Hd]; [lia|cbn; lia|lia|].
  rewrite Hr, Hd. split; [|reflexivity]. f_equal. f_equal. lia.
Qed.

(** X1. Round trip below [2^31]: a size that fits an [int] is read back as
    written, with the cursor on the byte following its encoding, without
    leaving ISO C. *)
Theorem varint_round_trip_below_2_31 (n : Z) (pre post : list byte) (top : nat) :
  0 <= n < 2 ^ 31 -> (length pre + length (encode_varint n) <= top)%nat ->
  let r := get_delta_hdr_size (pre ++ encode_varint n ++ post) (length pre) top in
  returned r = Some (n, (length pre + length (encode_varint n))%nat) /\
  arith_defined r = true.
Proof. exact (read_back_below_2_31 n pre post top). Qed.

Lemma varint_round_trip_below_2_31_witness :
  returned (get_delta_hdr_size ([xff] ++ encode_varint 300 ++ [xff]) 1 3) =
    Some (300, (1 + length (encode_varint 300))%nat) /\
  arith_defined (get_delta_hdr_size ([xff] ++ encode_varint 300 ++ [xff]) 1 3) = true.
Proof.
  apply (varint_round_trip_below_2_31 300 [xff] [xff] 3); [lia|vm_compute; lia].
Defined.

(** C1 at the size [2^31]: its encoding is [80 80 80 80 08]; the fifth
    group is shifted as an [int], [8 << 28] overflows, and the call returns
    [0xFFFFFFFF80000000] instead of [0x80000000].  The cursor is right. *)
Lemma round_trip_breaks_at_2_31 :
  encode_varint (2 ^ 31) = [x80; x80; x80; x80; x08] /\
  groups_value (encode_varint (2 ^ 31)) = 2 ^ 31 /\
  get_delta_hdr_size (encode_varint (2 ^ 31)) 0 5 =
    mk_run (Some (18446744071562067968, 5%nat)) [0; 1; 2; 3; 4]%nat 5 false.
Proof. repeat split. Qed.

(** X4. Two calls in sequence on sizes that fit an [int]: the first returns the
    source size and leaves the cursor on the target size, the second returns
    the target size. *)
Theorem header_two_calls_below_2_31 (n m : Z) (rest : list byte) (top : nat) :
  0 <= n < 2 ^ 31 -> 0 <= m < 2 ^ 31 ->
  (length (encode_varint n) + length (encode_varint m) <= top)%nat ->
  let stream := encode_varint n ++ encode_varint m ++ rest in
  let second := length (encode_varint n) in
  returned (get_delta_hdr_size stream 0 top) = Some (n, second) /\
  returned (get_delta_hdr_size stream second top) =
    Some (m, (second + length (encode_varint m))%nat).
Proof.
  intros Hn Hm Htop stream second. subst stream second. split.
  - apply (read_back_below_2_31 n [] (encode_varint m ++ rest) top Hn).
    cbn [length]. lia.
  - pose proof (read_back_below_2_31 m (encode_varint n) rest top Hm Htop)
      as [Hr _].
    exact Hr.
Qed.

Lemma header_two_calls_below_2_31_witness :
  returned (get_delta_hdr_size (encode_varint 10 ++ encode_varint 300 ++ [x02]) 0 4) =
    Some (10, length (encode_varint 10)) /\
  returned (get_delta_hdr_size (encode_varint 10 ++ encode_varint 300 ++ [x02])
              (length (encode_varint 10)) 4) =
    Some (300, (length (encode_varint 10) + length (encode_varint 300))%nat).
Proof.
  apply (header_two_calls_below_2_31 10 300 [x02] 4); [lia|lia|vm_compute; lia].
Defined.

(** C4 on a header whose source size is [2^31] and whose target size is 14:
    the cursor moves onto the second varint and the second call returns 14,
    but the first call returns [0xFFFFFFFF80000000], not the source size. *)
Lemma header_two_calls_break_at_2_31 :
  let stream := encode_varint (2 ^ 31) ++ encode_varint 14 in
  stream = [x80; x80; x80; x80; x08; x0e] /\
  returned (get_delta_hdr_size stream 0 6) = Some (18446744071562067968, 5%nat) /\
  returned (get_delta_hdr_size stream 5 6) = Some (14, 6%nat).
Proof. repeat split. Qed.

(** * Further properties of the header reader *)

(** ** Where the cursor stops *)

Lemma loop_stops_at_terminator (buf : list byte) (top data : nat) (size i : Z) :
  forall v c, returned (hdr_loop buf top data size i) = Some (v, c) ->
  (forall p b, (data <= p < c - 1)%nat -> nth_error buf p = Some b ->
               Z.land (uchar b) 128 <> 0) /\
  (forall b, nth_error buf (c - 1) = Some b -> Z.land (uchar b) 128 <> 0 ->
             (top <= c)%nat).
Proof.
  funelim (hdr_loop buf top data size i); cbn [again returned]; intros v c Hr.
  - discriminate.
  - loop_test.
    pose proof (loop_cursor _ _ _ _ _ _ _ Hr) as Hc.
    pose proof (loop_iterations_pos buf top (S data)
                  (accumulate size (uchar cmd) i) (wrap_int (i + 7))) as Hpos.
    match goal with
    | IH : forall _ _, _ -> _ /\ _ |- _ => destruct (IH v c Hr) as [Hbefore Hlast]
    end.
    split; [|exact Hlast].
    intros p b Hp Hb. destruct (Nat.eq_dec p data) as [->|Hne].
    + match goal with
      | H : nth_error _ data = Some cmd |- _ => rewrite H in Hb
      end.
      injection Hb as <-. exact Hcont.
    + apply (Hbefore p b); [lia|exact Hb].
  - injection Hr as <- <-. loop_test. split; [intros p b Hp; lia|].
    replace (S data - 1)%nat with data by lia. intros b Hb Hbit.
    match goal with
    | H : nth_error _ data = Some cmd |- _ => rewrite H in Hb
    end.
    injection Hb as <-. destruct Hstop as [Hz|Hle]; [contradiction|exact Hle].
Qed.

(** X6. Where the cursor stops: called with [*datap] before [top] inside the
    buffer, the call returns with the cursor after [*datap] and at most at
    [top]; it has read every byte up to the cursor once, all of them but the
    last carry the continuation bit, and the last one carries it only when
    the cursor is [top].  The cursor is after the first byte without the
    continuation bit, or at [top] when there is none before it. *)
Theorem cursor_at_first_terminator (buf : list byte) (datap top : nat) :
  (datap < top <= length buf)%nat ->
  exists v c,
    returned (get_delta_hdr_size buf datap top) = Some (v, c) /\
    (datap < c <= top)%nat /\
    reads (get_delta_hdr_size buf datap top) = seq datap (c - datap) /\
    (forall p b, (datap <= p < c - 1)%nat -> nth_error buf p = Some b ->
                 Z.land (uchar b) 128 <> 0) /\
    (forall b, nth_error buf (c - 1) = Some b -> Z.land (uchar b) 128 <> 0 ->
               c = top).
Proof.
  intros Hrange. unfold get_delta_hdr_size.
  destruct (loop_returns buf top datap 0 0) as (v & c & Hr); try lia.
  pose proof (loop_cursor _ _ _ _ _ _ _ Hr) as Hc.
  pose proof (loop_iterations_pos buf top datap 0 0) as Hpos.
  pose proof (loop_iterations_bound buf top datap 0 0) as Hb.
  rewrite Nat.max_r in Hb by lia.
  destruct (loop_stops_at_terminator _ _ _ _ _ _ _ Hr) as [Hbefore Hlast].
  exists v, c. split; [exact Hr|split; [lia|split; [|split]]].
  - rewrite loop_reads_consecutive. f_equal. lia.
  - exact Hbefore.
  - intros b Hbyte Hbit. specialize (Hlast b Hbyte Hbit). lia.
Qed.

Lemma cursor_at_first_terminator_witness :
  exists v c,
    returned (get_delta_hdr_size [x81; x82; x03; x84] 0 4) = Some (v, c) /\
    (0 < c <= 4)%nat /\
    reads (get_delta_hdr_size [x81; x82; x03; x84] 0 4) = seq 0 (c - 0) /\
    (forall p b, (0 <= p < c - 1)%nat -> nth_error [x81; x82; x03; x84] p = Some b ->
                 Z.land (uchar b) 128 <> 0) /\
    (forall b, nth_error [x81; x82; x03; x84] (c - 1) = Some b ->
               Z.land (uchar b) 128 <> 0 -> c = 4%nat).
Proof.
  apply (cursor_at_first_terminator [x81; x82; x03; x84] 0 4). cbn. lia.
Defined.

(** ** What the call depends on *)

Lemma loop_local (buf : list byte) (top data : nat) (size i : Z) :
  forall buf',
  (forall p, (data <= p < top)%nat \/ p = data -> nth_error buf p = nth_error buf' p) ->
  hdr_loop buf top data size i = hdr_loop buf' top data size i.
Proof.
  funelim (hdr_loop buf top data size i); intros buf' Hsame;
    rewrite (hdr_loop_body buf');
    rewrite <- (Hsame data (or_intror eq_refl));
    repeat match goal with
           | H : nth_error _ _ = _ |- _ => rewrite H
           | H : loop_again _ _ _ = _ |- _ => rewrite H
           end; try reflexivity.
  f_equal.
  match goal with
  | IH : forall _, _ -> hdr_loop _ _ _ _ _ = _ |- _ => apply IH
  end.
  loop_test. intros p Hp. apply Hsame. lia.
Qed.

(** X7. What the call depends on: two buffers that hold the same bytes at
    [*datap] and throughout [[*datap, top)] give the same call in every
    respect, whatever else they hold. *)
Theorem reads_only_its_window (buf buf' : list byte) (datap top : nat) :
  (forall p, (datap <= p < top)%nat \/ p = datap -> nth_error buf p = nth_error buf' p) ->
  get_delta_hdr_size buf datap top = get_delta_hdr_size buf' datap top.
Proof.
  intros Hsame. unfold get_delta_hdr_size. apply loop_local. exact Hsame.
Qed.

Lemma reads_only_its_window_witness :
  get_delta_hdr_size [x00; xac; x02; x07] 1 3 =
  get_delta_hdr_size [xff; xac; x02] 1 3.
Proof.
  apply (reads_only_its_window [x00; xac; x02; x07] [xff; xac; x02] 1 3).
  intros [|[|[|p]]] Hp; try reflexivity; lia.
Defined.

Lemma loop_top_irrelevant (buf : list byte) (top data : nat) (size i : Z) :
  forall v c b top',
  returned (hdr_loop buf top data size i) = Some (v, c) ->
  nth_error buf (c - 1) = Some b -> Z.land (uchar b) 128 = 0 ->
  (c <= top')%nat ->
  hdr_loop buf top' data size i = hdr_loop buf top data size i.
Proof.
  funelim (hdr_loop buf top data size i); cbn [again returned];
    intros v c b top' Hr Hb Hbit Hle.
  - discriminate.
  - loop_test.
    pose proof (loop_cursor _ _ _ _ _ _ _ Hr) as Hc.
    pose proof (loop_iterations_pos buf top (S data)
                  (accumulate size (uchar cmd) i) (wrap_int (i + 7))) as Hpos.
    rewrite hdr_loop_body.
    match goal with
    | H : nth_error _ data = Some cmd |- _ => rewrite H
    end.
    replace (loop_again (uchar cmd) (S data) top') with true.
    + f_equal.
      match goal with
      | IH : forall _ _ _ _, _ -> _ -> _ -> _ -> hdr_loop _ _ _ _ _ = _ |- _ =>
          apply (IH v c b top' Hr Hb Hbit Hle)
      end.
    + symmetry. unfold loop_again. apply andb_true_intro. split.
      * apply negb_true_iff, Z.eqb_neq. exact Hcont.
      * apply Nat.ltb_lt. lia.
  - injection Hr as <- <-. rewrite hdr_loop_body.
    replace (S data - 1)%nat with data in Hb by lia.
    match goal with
    | H : nth_error _ data = Some cmd |- _ => rewrite H in Hb |- *
    end.
    injection Hb as <-.
    replace (loop_again (uchar cmd) (S data) top') with false; [reflexivity|].
    symmetry. unfold loop_again. rewrite Hbit. reflexivity.
Qed.

(** X8. The end pointer only matters to a header that is cut short: when a
    call returns and the last byte it consumed has no continuation bit, the
    call with any other [top'] at or after the cursor is the same call. *)
Theorem end_pointer_irrelevant (buf : list byte) (datap top top' : nat)
    (v : Z) (c : nat) (b : byte) :
  returned (get_delta_hdr_size buf datap top) = Some (v, c) ->
  nth_error buf (c - 1) = Some b -> Z.land (uchar b) 128 = 0 ->
  (c <= top')%nat ->
  get_delta_hdr_size buf datap top' = get_delta_hdr_size buf datap top.
Proof.
  unfold get_delta_hdr_size. intros Hr Hb Hbit Hle.
  exact (loop_top_irrelevant buf top datap 0 0 v c b top' Hr Hb Hbit Hle).
Qed.

Lemma end_pointer_irrelevant_witness :
  get_delta_hdr_size [xac; x02; xff; xff] 0 4 = get_delta_hdr_size [xac; x02; xff; xff] 0 2.
Proof.
  apply (end_pointer_irrelevant [xac; x02; xff; xff] 0 2 4 300 2 x02);
    [reflexivity|reflexivity|reflexivity|lia].
Defined.

(** ** Where the arithmetic is defined *)

Lemma groups_value_nonneg (l : list byte) : 0 <= groups_value l.
Proof.
  induction l as [|b l IH]; cbn [groups_value]; [lia|].
  pose proof (Z.mod_pos_bound (uchar b) 128 eq_refl). lia.
Qed.

Lemma step_defined_spec (a i : Z) :
  0 <= a -> (step_defined a i = true <-> 0 <= i < 32 /\ a * 2 ^ i < 2 ^ 31).
Proof.
  intros Ha. unfold step_defined.
  rewrite andb_true_iff, shl_defined_spec, Z.ltb_lt.
  change (2 ^ (int_bits - 1)) with 2147483648. change (2 ^ 31) with 2147483648.
  split; [intros [(Hi & _ & Hfit) _]; auto|intros [Hi Hfit]]. lia.
Qed.

(** The weight [2^(7m)] of the group read at iteration [m]. *)
Lemma group_weight (m : Z) :
  0 <= m <= 4 ->
  2 ^ (7 * (m + 1)) = 128 * 2 ^ (7 * m) /\
  (2 ^ (7 * m) = 1 \/ 2 ^ (7 * m) = 128 \/ 2 ^ (7 * m) = 16384
   \/ 2 ^ (7 * m) = 2097152 \/ 2 ^ (7 * m) = 268435456).
Proof.
  intros Hm.
  assert (Hcase : m = 0 \/ m = 1 \/ m = 2 \/ m = 3 \/ m = 4) by lia.
  destruct Hcase as [->|[->|[->|[->| ->]]]]; split; try reflexivity; auto 6.
Qed.

(** From iteration [m] on, the loop stays within ISO C exactly when it stops
    by the fifth group and what it reads, at its weight, fits an [int]. *)
Lemma loop_defined_iff (buf : list byte) (top data : nat) (size i : Z) :
  forall m, 0 <= m -> i = 7 * m ->
  forall v c, returned (hdr_loop buf top data size i) = Some (v, c) ->
  (arith_defined (hdr_loop buf top data size i) = true <->
   m + Z.of_nat (c - data) <= 5 /\
   groups_value (slice buf data c) * 2 ^ (7 * m) < 2 ^ 31).
Proof.
  funelim (hdr_loop buf top data size i); cbn [again returned arith_defined];
    intros m Hm Hi v c Hr.
  - discriminate.
  - pose proof (loop_cursor _ _ _ _ _ _ _ Hr) as Hc.
    pose proof (loop_iterations_pos buf top (S data)
                  (accumulate size (uchar cmd) i) (wrap_int (i + 7))) as Hpos.
    pose proof (Z.mod_pos_bound (uchar cmd) 128 eq_refl) as Ha.
    match goal with
    | H : nth_error _ data = Some cmd |- _ => rewrite (slice_cons _ _ _ _ H) by lia
    end.
    cbn [groups_value]. rewrite low7_uchar.
    pose proof (groups_value_nonneg (slice buf (S data) c)) as Hg.
    rewrite andb_true_iff, step_defined_spec by lia.
    destruct (Z.le_gt_cases m 4) as [Hsmall|Hlarge]; [|split; lia].
    assert (Hw : wrap_int (i + 7) = 7 * (m + 1)) by (rewrite wrap_int_small; lia).
    match goal with
    | IH : forall _, _ -> _ -> forall _ _, _ -> _ <-> _ |- _ =>
        rewrite (IH (m + 1) ltac:(lia) Hw v c Hr)
    end.
    destruct (group_weight m (conj Hm Hsmall)) as [Hnext Hweight].
    rewrite Hnext, Hi.
    replace (Z.of_nat (c - data)) with (1 + Z.of_nat (c - S data)) by lia.
    destruct Hweight as [->|[->|[->|[->| ->]]]]; lia.
  - injection Hr as <- <-.
    pose proof (Z.mod_pos_bound (uchar cmd) 128 eq_refl) as Ha.
    match goal with
    | H : nth_error _ data = Some cmd |- _ => rewrite (slice_one _ _ _ H)
    end.
    cbn [groups_value]. rewrite low7_uchar, step_defined_spec by lia.
    replace (Z.of_nat (S data - data)) with 1 by lia.
    destruct (Z.le_gt_cases m 4) as [Hsmall|Hlarge]; [|split; lia].
    destruct (group_weight m (conj Hm Hsmall)) as [_ Hweight].
    rewrite Hi. destruct Hweight as [->|[->|[->|[->| ->]]]]; lia.
Qed.

(** X9. Where the arithmetic is defined: a call that returns has stayed
    within ISO C (no shift by the width of [int] or more, no shift whose
    result does not fit [int]) exactly when it consumed at most five bytes
    and the number their 7-bit groups denote is below [2^31]. *)
Theorem defined_up_to_five_groups (buf : list byte) (datap top : nat)
    (v : Z) (c : nat) :
  returned (get_delta_hdr_size buf datap top) = Some (v, c) ->
  (arith_defined (get_delta_hdr_size buf datap top) = true <->
   (c - datap <= 5)%nat /\ groups_value (slice buf datap c) < 2 ^ 31).
Proof.
  unfold get_delta_hdr_size. intros Hr.
  rewrite (loop_defined_iff buf top datap 0 0 0 ltac:(lia) eq_refl v c Hr).
  change (2 ^ (7 * 0)) with 1. rewrite Z.mul_1_r. split; intros [H1 H2]; split; lia.
Qed.

Lemma defined_up_to_five_groups_witness :
  arith_defined (get_delta_hdr_size [xff; xff; xff; xff; x07; x01] 0 6) = true <->
  (5 - 0 <= 5)%nat /\ groups_value (slice [xff; xff; xff; xff; x07; x01] 0 5) < 2 ^ 31.
Proof.
  apply (defined_up_to_five_groups [xff; xff; xff; xff; x07; x01] 0 6 (2 ^ 31 - 1) 5).
  reflexivity.
Defined.

(** ** The second call *)

(** X10. The second call: after a first call on a window [[*datap, top)] of
    the buffer, a second call from the cursor it left stays inside the window
    and returns when that cursor is before [top]; when the first call
    stopped at [top] (a header cut short, or one that ends on the last byte)
    the second call dereferences the byte at [top] itself, outside the
    buffer when [top] is its end. *)
Theorem second_call_window (buf : list byte) (datap top : nat) (v1 : Z) (c1 : nat) :
  (datap < top <= length buf)%nat ->
  returned (get_delta_hdr_size buf datap top) = Some (v1, c1) ->
  (c1 < top \/ c1 = top)%nat /\
  ((c1 < top)%nat ->
     exists v2 c2,
       returned (get_delta_hdr_size buf c1 top) = Some (v2, c2) /\
       (c1 < c2 <= top)%nat /\
       Forall (fun p => (c1 <= p < top)%nat) (reads (get_delta_hdr_size buf c1 top))) /\
  (c1 = top ->
     reads (get_delta_hdr_size buf c1 top) = [top] /\
     (top = length buf -> returned (get_delta_hdr_size buf c1 top) = None)).
Proof.
  unfold get_delta_hdr_size. intros Hrange Hr1.
  pose proof (loop_cursor _ _ _ _ _ _ _ Hr1) as Hc1.
  pose proof (loop_iterations_bound buf top datap 0 0) as Hb1.
  rewrite Nat.max_r in Hb1 by lia.
  split; [lia|split].
  - intros Hlt.
    destruct (loop_returns buf top c1 0 0) as (v2 & c2 & Hr2); try lia.
    pose proof (loop_cursor _ _ _ _ _ _ _ Hr2) as Hc2.
    pose proof (loop_iterations_pos buf top c1 0 0) as Hpos.
    pose proof (loop_iterations_bound buf top c1 0 0) as Hb2.
    rewrite Nat.max_r in Hb2 by lia.
    exists v2, c2. split; [exact Hr2|split; [lia|]].
    rewrite loop_reads_consecutive. apply Forall_forall.
    intros p Hp. apply in_seq in Hp. lia.
  - intros ->. split.
    + rewrite loop_reads_consecutive, loop_stops_at_top by lia. reflexivity.
    + intros Hend. rewrite hdr_loop_body.
      rewrite (proj2 (nth_error_None buf top)) by lia. reflexivity.
Qed.

Lemma second_call_window_witness :
  (4 < 4 \/ 4 = 4)%nat /\
  ((4 < 4)%nat ->
     exists v2 c2,
       returned (get_delta_hdr_size [xff; xff; xff; xff] 4 4) = Some (v2, c2) /\
       (4 < c2 <= 4)%nat /\
       Forall (fun p => (4 <= p < 4)%nat)
              (reads (get_delta_hdr_size [xff; xff; xff; xff] 4 4))) /\
  (4%nat = 4%nat ->
     reads (get_delta_hdr_size [xff; xff; xff; xff] 4 4) = [4%nat] /\
     (4%nat = length [xff; xff; xff; xff] ->
      returned (get_delta_hdr_size [xff; xff; xff; xff] 4 4) = None)).
Proof.
  apply (second_call_window [xff; xff; xff; xff] 0 4 268435455 4);
    [cbn; lia|reflexivity].
Defined.

(** ** Encodings longer than they have to be *)

Lemma with_continuation_bit (b : byte) : Z.land (uchar (with_continuation b)) 128 <> 0.
Proof. destruct b; vm_compute; discriminate. Qed.

Lemma with_continuation_low (b : byte) :
  uchar (with_continuation b) mod 128 = uchar b mod 128.
Proof. destruct b; reflexivity. Qed.

Lemma groups_value_pad (l : list byte) : groups_value (pad_varint l) = groups_value l.
Proof.
  unfold pad_varint. induction l as [|b l IH]; [reflexivity|].
  cbn [map app groups_value]. rewrite with_continuation_low, IH. reflexivity.
Qed.

Lemma pad_varint_length (l : list byte) : length (pad_varint l) = S (length l).
Proof.
  unfold pad_varint. rewrite length_app, length_map. cbn [length]. lia.
Qed.

Lemma encode_groups_length_le (fuel : nat) : forall (n : Z) (k : nat),
  (1 <= k)%nat -> 0 <= n < 128 ^ Z.of_nat k ->
  (length (encode_groups fuel n) <= k)%nat.
Proof.
  induction fuel as [|fuel IH]; intros n k Hk Hn; cbn [encode_groups].
  - cbn [length]. exact Hk.
  - destruct (Z.ltb_spec n 128) as [Hlt|Hge]; cbn [length]; [exact Hk|].
    destruct k as [|[|k]]; [lia| |].
    + change (128 ^ Z.of_nat 1) with 128 in Hn. lia.
    + apply le_n_S. apply IH; [lia|].
      rewrite (Nat2Z.inj_succ (S k)), Z.pow_succ_r in Hn by lia.
      split; [apply Z.div_pos; lia|apply Z.div_lt_upper_bound; lia].
Qed.

(** The loop on a padded sequence of groups consumes all of it. *)
Lemma loop_on_padded (l : list byte) : forall (pre post : list byte) (top : nat)
    (size i : Z),
  (length pre + length l + 1 <= top)%nat ->
  exists v,
    returned (hdr_loop (pre ++ pad_varint l ++ post) top (length pre) size i) =
    Some (v, (length pre + length l + 1)%nat).
Proof.
  unfold pad_varint.
  induction l as [|b l IH]; intros pre post top size i Htop;
    rewrite hdr_loop_body; cbn [map app length] in *; rewrite nth_error_middle.
  - replace (loop_again (uchar x00) (S (length pre)) top) with false by reflexivity.
    cbn [returned]. replace (length pre + 0 + 1)%nat with (S (length pre)) by lia.
    eauto.
  - replace (loop_again (uchar (with_continuation b)) (S (length pre)) top) with true.
    2:{ symmetry. unfold loop_again. apply andb_true_intro. split.
        - apply negb_true_iff, Z.eqb_neq. apply with_continuation_bit.
        - apply Nat.ltb_lt. lia. }
    cbn [again returned].
    replace (pre ++ with_continuation b :: (map with_continuation l ++ [x00]) ++ post)
      with ((pre ++ [with_continuation b]) ++ (map with_continuation l ++ [x00]) ++ post)
      by (rewrite <- app_assoc; reflexivity).
    replace (S (length pre)) with (length (pre ++ [with_continuation b]))
      by (rewrite length_app; cbn; lia).
    replace (length pre + S (length l) + 1)%nat
      with (length (pre ++ [with_continuation b]) + length l + 1)%nat
      by (rewrite length_app; cbn; lia).
    apply IH. rewrite length_app. cbn [length]. lia.
Qed.

(** X11. Encodings longer than they have to be are accepted: the encoding
    of a size below [2^28] with the continuation bit set on every byte and a
    zero group added is read as that same size, cursor after the added byte,
    without leaving ISO C.  Reading is not one-to-one. *)
Theorem padded_encoding_accepted (n : Z) (pre post : list byte) (top : nat) :
  0 <= n < 2 ^ 28 ->
  (length pre + length (encode_varint n) + 1 <= top)%nat ->
  let r := get_delta_hdr_size (pre ++ pad_varint (encode_varint n) ++ post)
             (length pre) top in
  returned r = Some (n, (length pre + length (encode_varint n) + 1)%nat) /\
  arith_defined r = true.
Proof.
  intros Hn Htop r. subst r. unfold get_delta_hdr_size.
  set (buf := pre ++ pad_varint (encode_varint n) ++ post).
  destruct (loop_on_padded (encode_varint n) pre post top 0 0 Htop) as (v & Hr).
  fold buf in Hr.
  assert (Hlen : (length (encode_varint n) <= 4)%nat)
    by (apply encode_groups_length_le; [lia|exact Hn]).
  assert (Hslice : slice buf (length pre) (length pre + length (encode_varint n) + 1)
                   = pad_varint (encode_varint n)).
  { replace (length pre + length (encode_varint n) + 1)%nat
      with (length pre + length (pad_varint (encode_varint n)))%nat
      by (rewrite pad_varint_length; lia).
    apply slice_middle. }
  assert (Hvalue : groups_value (pad_varint (encode_varint n)) = n).
  { rewrite groups_value_pad. apply groups_value_encode.
    split; [lia|apply encode_fuel_enough; lia]. }
  assert (Hd : arith_defined (hdr_loop buf top (length pre) 0 0) = true).
  { apply (loop_defined_iff buf top (length pre) 0 0 0 ltac:(lia) eq_refl v _ Hr).
    rewrite Hslice, Hvalue. change (2 ^ (7 * 0)) with 1. lia. }
  split; [|exact Hd].
  rewrite Hr. do 2 f_equal.
  rewrite (loop_value buf top (length pre) 0 0 ltac:(lia) ltac:(cbn; lia) Hd v _ Hr).
  rewrite Hslice, Hvalue. cbn. lia.
Qed.

Lemma padded_encoding_accepted_witness :
  returned (get_delta_hdr_size ([xff] ++ pad_varint (encode_varint 300) ++ [xff]) 1 4) =
    Some (300, (1 + length (encode_varint 300) + 1)%nat) /\
  arith_defined (get_delta_hdr_size ([xff] ++ pad_varint (encode_varint 300) ++ [xff]) 1 4)
    = true.
Proof.
  apply (padded_encoding_accepted 300 [xff] [xff] 4); [lia|vm_compute; lia].
Defined.

(** * Properties of the codec model *)

(** ** The stream format read back *)


Lemma le_bytes_length (k : nat) (v : Z) : length (le_bytes k v) = k.
Proof.
  revert v. induction k as [|k IH]; intros v; cbn [le_bytes length]; congruence.
Qed.







(** ** Operations and their effect *)














(** ** Emission and the cutoff *)

Lemma encode_ops_app (ops1 ops2 : list op) :
  encode_ops (ops1 ++ ops2) = encode_ops ops1 ++ encode_ops ops2.
Proof. unfold encode_ops. rewrite map_app, concat_app. reflexivity. Qed.

Lemma exceeds_unset (len : nat) : exceeds 0 len = false.
Proof. reflexivity. Qed.

Lemma emit_all_ok (max_size : nat) (ops : list op) : forall out out',
  emit_all max_size out ops = Ok out' -> out' = out ++ encode_ops ops.
Proof.
  induction ops as [|o ops IH]; intros out out'; cbn [emit_all].
  - intros [= <-]. rewrite app_nil_r. reflexivity.
  - unfold emit. destruct (exceeds _ _); [discriminate|].
    intros H. apply IH in H. rewrite H, <- app_assoc. reflexivity.
Qed.

Lemma emit_all_error (max_size : nat) (ops : list op) : forall out e,
  emit_all max_size out ops = Error e -> e = SizeExceeded.
Proof.
  induction ops as [|o ops IH]; intros out e; cbn [emit_all]; [discriminate|].
  unfold emit. destruct (exceeds _ _); [intros [= <-]; reflexivity|apply IH].
Qed.

Lemma emit_all_unset (ops : list op) (out : list byte) :
  emit_all 0 out ops = Ok (out ++ encode_ops ops).
Proof.
  revert out. induction ops as [|o ops IH]; intros out; cbn [emit_all].
  - rewrite app_nil_r. reflexivity.
  - unfold emit. rewrite exceeds_unset, IH, <- app_assoc. reflexivity.
Qed.

Lemma exceeds_mono (max_size a b : nat) :
  (a <= b)%nat -> exceeds max_size b = false -> exceeds max_size a = false.
Proof.
  unfold exceeds. intros Hab H. apply andb_false_iff in H as [H|H].
  - rewrite H. reflexivity.
  - apply andb_false_intro2. apply Nat.ltb_ge in H. apply Nat.ltb_ge. lia.
Qed.

(** Under a cutoff that the stream written does not exceed, emission goes as
    without a cutoff. *)
Lemma emit_all_within (max_size : nat) (ops : list op) : forall out,
  exceeds max_size (length (out ++ encode_ops ops)) = false ->
  emit_all max_size out ops = Ok (out ++ encode_ops ops).
Proof.
  induction ops as [|o ops IH]; intros out Hcap; cbn [emit_all].
  - rewrite app_nil_r. reflexivity.
  - change (encode_ops (o :: ops)) with (encode_op o ++ encode_ops ops) in *.
    assert (Hle : (length (out ++ encode_op o)
                   <= length (out ++ encode_op o ++ encode_ops ops))%nat)
      by (rewrite !length_app; lia).
    unfold emit. rewrite (exceeds_mono _ _ _ Hle Hcap).
    rewrite IH; rewrite <- app_assoc; [reflexivity|exact Hcap].
Qed.

(** ** Matches are real *)








(** ** The greedy pass *)

Lemma scan_body (tn : params) (idx : delta_index) (max_size : nat)
    (target : list byte) (t : nat) (pending out : list byte) :
  scan tn idx max_size target t pending out =
  match nth_error target t with
  | None => emit_all max_size out (inserts pending)
  | Some b =>
      match best_match tn idx target t pending with
      | None => scan tn idx max_size target (S t) (pending ++ [b]) out
      | Some m =>
          match emit_all max_size out
                  (inserts (firstn (length pending - found_back m) pending)
                     ++ copies (found_offset m) (span m)) with
          | Error e => Error e
          | Ok out' => scan tn idx max_size target (t + found_fwd m) [] out'
          end
      end
  end.
Proof.
  funelim (scan tn idx max_size target t pending out).
  all: repeat match goal with
              | H : nth_error _ _ = _ |- _ => rewrite H
              | H : best_match _ _ _ _ _ = _ |- _ => rewrite H
              | H : emit_all _ _ _ = _ |- _ => rewrite H
              end; try reflexivity.

Qed.

Section Scan.
Variable tn : params.
Variable idx : delta_index.
Variable target : list byte.

(** Induction along the pass: the end of the target, a byte taken as a
    literal, a match whose emission is cut off, a match written. *)
Lemma scan_cases (max_size : nat)
    (P : nat -> list byte -> list byte -> result (list byte) -> Prop) :
  (forall t pending out,
     nth_error target t = None ->
     P t pending out (emit_all max_size out (inserts pending))) ->
  (forall t pending out b,
     nth_error target t = Some b ->
     best_match tn idx target t pending = None ->
     P (S t) (pending ++ [b]) out (scan tn idx max_size target (S t) (pending ++ [b]) out) ->
     P t pending out (scan tn idx max_size target (S t) (pending ++ [b]) out)) ->
  (forall t pending out b m e,
     nth_error target t = Some b ->
     best_match tn idx target t pending = Some m ->
     emit_all max_size out
       (inserts (firstn (length pending - found_back m) pending)
          ++ copies (found_offset m) (span m)) = Error e ->
     P t pending out (Error e)) ->
  (forall t pending out b m out',
     nth_error target t = Some b ->
     best_match tn idx target t pending = Some m ->
     emit_all max_size out
       (inserts (firstn (length pending - found_back m) pending)
          ++ copies (found_offset m) (span m)) = Ok out' ->
     P (t + found_fwd m)%nat [] out' (scan tn idx max_size target (t + found_fwd m) [] out') ->
     P t pending out (scan tn idx max_size target (t + found_fwd m) [] out')) ->
  forall t pending out, P t pending out (scan tn idx max_size target t pending out).
Proof.
  intros Hend Hlit Hcut Hcopy t.
  remember (length target - t)%nat as n eqn:Hn. revert t Hn.
  induction n as [n IH] using lt_wf_ind. intros t Hn pending out.
  rewrite scan_body.
  destruct (nth_error target t) as [b|] eqn:Eb; [|apply Hend; exact Eb].
  pose proof (proj1 (nth_error_Some target t) ltac:(rewrite Eb; discriminate)) as Hlt.
  destruct (best_match tn idx target t pending) as [m|] eqn:Em.
  - pose proof (best_match_fwd_pos _ _ _ _ _ _ Em) as Hfwd.
    destruct (emit_all max_size out _) as [out'|e] eqn:Ee.
    + eapply Hcopy; try eassumption.
      apply (IH (length target - (t + found_fwd m))%nat); [lia|reflexivity].
    + eapply Hcut; eassumption.
  - eapply Hlit; try eassumption.
    apply (IH (length target - S t)%nat); [lia|reflexivity].
Qed.

(** The pass only appends operations to the stream it was given. *)
Lemma scan_extends (max_size : nat) (t : nat) (pending out stream : list byte) :
  scan tn idx max_size target t pending out = Ok stream ->
  exists ops, stream = out ++ encode_ops ops.
Proof.
  revert stream.
  apply (scan_cases max_size
           (fun t pending out r =>
              forall stream, r = Ok stream -> exists ops, stream = out ++ encode_ops ops)).
  - intros t' pending' out' Hend stream H. apply emit_all_ok in H. eauto.
  - intros t' pending' out' b _ _ IH stream H. apply IH. exact H.
  - discriminate.
  - intros t' pending' out0 b m out' _ _ He IH stream H.
    apply emit_all_ok in He. destruct (IH stream H) as (ops & ->). subst out'.
    eexists. rewrite <- app_assoc, <- encode_ops_app. reflexivity.
Qed.

Lemma scan_error (max_size : nat) (t : nat) (pending out : list byte) (e : build_error) :
  scan tn idx max_size target t pending out = Error e -> e = SizeExceeded.
Proof.
  revert e.
  apply (scan_cases max_size
           (fun t pending out r => forall e, r = Error e -> e = SizeExceeded)).
  - intros t' pending' out' _ e H. apply emit_all_error in H. exact H.
  - intros t' pending' out' b _ _ IH e H. apply IH. exact H.
  - intros t' pending' out' b m e0 _ _ He e [= <-]. apply emit_all_error in He. exact He.
  - intros t' pending' out0 b m out' _ _ _ IH e H. apply IH. exact H.
Qed.

(** Without a cutoff the pass always ends with a stream. *)
Lemma scan_unset (t : nat) (pending out : list byte) :
  exists stream, scan tn idx 0 target t pending out = Ok stream.
Proof.
  apply (scan_cases 0 (fun _ _ _ r => exists stream, r = Ok stream)).
  - intros t' pending' out' _. rewrite emit_all_unset. eauto.
  - intros t' pending' out' b _ _ IH. exact IH.
  - intros t' pending' out' b m e _ _ He. rewrite emit_all_unset in He. discriminate.
  - intros t' pending' out0 b m out' _ _ _ IH. exact IH.
Qed.

(** A stream written under a cutoff is the stream written without one. *)
Lemma scan_cutoff_drop (max_size : nat) (t : nat) (pending out stream : list byte) :
  scan tn idx max_size target t pending out = Ok stream ->
  scan tn idx 0 target t pending out = Ok stream.
Proof.
  revert stream.
  apply (scan_cases max_size
           (fun t pending out r =>
              forall stream, r = Ok stream ->
                             scan tn idx 0 target t pending out = Ok stream)).
  - intros t' pending' out' Hend stream H. rewrite scan_body, Hend.
    rewrite (emit_all_ok _ _ _ _ H). apply emit_all_unset.
  - intros t' pending' out' b Hb Hm IH stream H. rewrite scan_body, Hb, Hm.
    apply IH. exact H.
  - discriminate.
  - intros t' pending' out0 b m out' Hb Hm He IH stream H.
    rewrite scan_body, Hb, Hm, emit_all_unset, <- (emit_all_ok _ _ _ _ He).
    apply IH. exact H.
Qed.

(** A cutoff that the unbounded stream does not exceed changes nothing. *)
Lemma scan_cutoff_within (max_size : nat) (t : nat) (pending out stream : list byte) :
  scan tn idx 0 target t pending out = Ok stream ->
  exceeds max_size (length stream) = false ->
  scan tn idx max_size target t pending out = Ok stream.
Proof.
  revert stream.
  apply (scan_cases 0
           (fun t pending out r =>
              forall stream, r = Ok stream ->
                             exceeds max_size (length stream) = false ->
                             scan tn idx max_size target t pending out = Ok stream)).
  - intros t' pending' out' Hend stream H Hcap. rewrite scan_body, Hend.
    rewrite emit_all_unset in H. injection H as <-.
    apply emit_all_within. exact Hcap.
  - intros t' pending' out' b Hb Hm IH stream H Hcap. rewrite scan_body, Hb, Hm.
    apply IH; assumption.
  - discriminate.
  - intros t' pending' out0 b m out' Hb Hm He IH stream H Hcap.
    rewrite scan_body, Hb, Hm.
    rewrite emit_all_unset in He. injection He as <-.
    destruct (scan_extends _ _ _ _ _ H) as (ops & Hs).
    rewrite emit_all_within.
    + apply IH; assumption.
    + apply (exceeds_mono max_size _ (length stream)); [|exact Hcap].
      rewrite Hs, (length_app (_ ++ _)). lia.
Qed.
End Scan.




(** ** The hash table *)

Lemma bucket_add_length (k : nat) (e : index_entry) (tbl : list (list index_entry)) :
  length (bucket_add k e tbl) = length tbl.
Proof.
  revert k. induction tbl as [|b tbl IH]; intros [|k]; cbn [bucket_add length];
    try reflexivity.
  rewrite IH. reflexivity.
Qed.

Lemma bucket_add_nth (k j : nat) (e : index_entry) (tbl : list (list index_entry)) :
  (k < length tbl)%nat ->
  nth j (bucket_add k e tbl) [] = if (j =? k)%nat then nth j tbl [] ++ [e] else nth j tbl [].
Proof.
  revert k j. induction tbl as [|b tbl IH]; intros k j Hk; [cbn in Hk; lia|].
  destruct k as [|k], j as [|j]; cbn [bucket_add nth Nat.eqb]; try reflexivity.
  apply IH. cbn [length] in Hk. lia.
Qed.

Lemma bucket_of_lt (slots : nat) (h : Z) : (0 < slots)%nat -> (bucket_of slots h < slots)%nat.
Proof.
  intros Hs. unfold bucket_of.
  pose proof (Z.mod_pos_bound h (Z.of_nat slots) ltac:(lia)). lia.
Qed.

Lemma fold_insert_length (es : list index_entry) : forall tbl,
  length (fold_left table_insert es tbl) = length tbl.
Proof.
  induction es as [|e es IH]; intros tbl; cbn [fold_left]; [reflexivity|].
  rewrite IH. apply bucket_add_length.
Qed.

Lemma table_lookup_insert (tbl : list (list index_entry)) (e : index_entry) (h : Z) :
  (0 < length tbl)%nat ->
  table_lookup (table_insert tbl e) h =
  table_lookup tbl h ++ (if entry_hash e =? h then [e] else []).
Proof.
  intros Hpos. unfold table_lookup, table_insert.
  rewrite bucket_add_length, bucket_add_nth by (apply bucket_of_lt; exact Hpos).
  destruct (Z.eqb_spec (entry_hash e) h) as [Heq|Hne].
  - rewrite Heq, Nat.eqb_refl, filter_app. cbn [filter].
    rewrite Heq, Z.eqb_refl. reflexivity.
  - destruct (_ =? _)%nat; [|rewrite app_nil_r; reflexivity].
    rewrite filter_app. cbn [filter].
    destruct (Z.eqb_spec (entry_hash e) h); [contradiction|reflexivity].
Qed.

(** Looking a hash up after a series of insertions: what was there, then the
    inserted blocks with that hash, in insertion order. *)
Lemma table_lookup_fold (es : list index_entry) (h : Z) : forall tbl,
  (0 < length tbl)%nat ->
  table_lookup (fold_left table_insert es tbl) h =
  table_lookup tbl h ++ filter (fun e => entry_hash e =? h) es.
Proof.
  induction es as [|e es IH]; intros tbl Hpos; cbn [fold_left filter].
  - rewrite app_nil_r. reflexivity.
  - rewrite IH by (unfold table_insert; rewrite bucket_add_length; exact Hpos).
    rewrite table_lookup_insert by exact Hpos.
    rewrite <- app_assoc. destruct (entry_hash e =? h); reflexivity.
Qed.

Lemma table_lookup_empty (slots : nat) (h : Z) : table_lookup (repeat [] slots) h = [].
Proof. unfold table_lookup. rewrite nth_repeat. reflexivity. Qed.

Lemma bucket_add_entries (k : nat) (e x : index_entry) (tbl : list (list index_entry)) :
  In x (table_entries (bucket_add k e tbl)) -> x = e \/ In x (table_entries tbl).
Proof.
  unfold table_entries. revert k.
  induction tbl as [|b tbl IH]; intros [|k]; cbn [bucket_add concat]; auto.
  - rewrite <- app_assoc. rewrite !in_app_iff. cbn [In]. intuition auto.
  - rewrite !in_app_iff. intros [H|H]; [auto|]. apply IH in H. intuition auto.
Qed.

Lemma fold_insert_entries (es : list index_entry) (x : index_entry) : forall tbl,
  In x (table_entries (fold_left table_insert es tbl)) ->
  In x es \/ In x (table_entries tbl).
Proof.
  induction es as [|e es IH]; intros tbl; cbn [fold_left In]; [auto|].
  intros H. apply IH in H as [H|H]; [auto|].
  apply bucket_add_entries in H. intuition auto.
Qed.

Lemma empty_table_entries (slots : nat) : table_entries (repeat [] slots) = [].
Proof.
  unfold table_entries. induction slots as [|n IH]; [reflexivity|exact IH].
Qed.

Lemma table_wf_empty (slots : nat) : table_wf (repeat [] slots).
Proof. intros j e. rewrite nth_repeat. contradiction. Qed.

Lemma table_wf_insert (tbl : list (list index_entry)) (e : index_entry) :
  (0 < length tbl)%nat -> table_wf tbl -> table_wf (table_insert tbl e).
Proof.
  intros Hpos Hwf j x. unfold table_insert.
  rewrite bucket_add_length, bucket_add_nth by (apply bucket_of_lt; exact Hpos).
  destruct (Nat.eqb_spec j (bucket_of (length tbl) (entry_hash e))) as [->|Hne].
  - rewrite in_app_iff. cbn [In]. intros [H|[<-|[]]]; [apply Hwf; exact H|reflexivity].
  - apply Hwf.
Qed.

Lemma table_wf_fold (es : list index_entry) : forall tbl,
  (0 < length tbl)%nat -> table_wf tbl -> table_wf (fold_left table_insert es tbl).
Proof.
  induction es as [|e es IH]; intros tbl Hpos Hwf; cbn [fold_left]; [exact Hwf|].
  apply IH.
  - unfold table_insert. rewrite bucket_add_length. exact Hpos.
  - apply table_wf_insert; assumption.
Qed.

Lemma filter_none {A : Type} (f : A -> bool) (l : list A) :
  (forall x, In x l -> f x = false) -> filter f l = [].
Proof.
  induction l as [|x l IH]; intros H; cbn [filter]; [reflexivity|].
  rewrite (H x (or_introl eq_refl)). apply IH. intros y Hy. apply H. right. exact Hy.
Qed.

(** Filtering all the buckets, numbered from [base], on a property that only
    blocks of bucket [k] have, leaves what the filter keeps of bucket [k]. *)
Lemma filter_buckets (f : index_entry -> bool) (g : index_entry -> nat) (k : nat)
    (bs : list (list index_entry)) : forall base,
  (forall j e, In e (nth j bs []) -> g e = (base + j)%nat) ->
  (forall e, f e = true -> g e = k) ->
  filter f (concat bs) =
  if (base <=? k)%nat then filter f (nth (k - base) bs []) else [].
Proof.
  induction bs as [|b bs IH]; intros base Hg Hf; cbn [concat].
  - destruct (k - base)%nat, (base <=? k)%nat; reflexivity.
  - rewrite filter_app, (IH (S base)).
    2:{ intros j e He. rewrite (Hg (S j) e He). lia. }
    2:{ exact Hf. }
    destruct (Nat.leb_spec base k) as [Hle|Hgt].
    + destruct (Nat.eq_dec base k) as [->|Hne].
      * rewrite Nat.sub_diag. cbn [nth].
        destruct (Nat.leb_spec (S k) k); [lia|]. apply app_nil_r.
      * rewrite filter_none.
        2:{ intros x Hx. destruct (f x) eqn:E; [|reflexivity].
            apply Hf in E. specialize (Hg O x Hx). lia. }
        destruct (Nat.leb_spec (S base) k); [|lia].
        replace (k - base)%nat with (S (k - S base)) by lia. reflexivity.
    + destruct (Nat.leb_spec (S base) k); [lia|].
      rewrite app_nil_r. apply filter_none.
      intros x Hx. destruct (f x) eqn:E; [|reflexivity].
      apply Hf in E. specialize (Hg O x Hx). lia.
Qed.

Lemma table_wf_lookup (tbl : list (list index_entry)) (h : Z) :
  table_wf tbl ->
  filter (fun e => entry_hash e =? h) (table_entries tbl) = table_lookup tbl h.
Proof.
  intros Hwf. unfold table_entries, table_lookup.
  rewrite (filter_buckets _ (fun e => bucket_of (length tbl) (entry_hash e))
             (bucket_of (length tbl) h) tbl O).
  - rewrite Nat.sub_0_r. reflexivity.
  - intros j e He. apply Hwf. exact He.
  - intros e He. apply Z.eqb_eq in He. rewrite He. reflexivity.
Qed.

(** ** What [create_delta_index] builds *)

Lemma create_delta_index_ok (tn : params) (src : source_info)
    (old : option delta_index) (idx : delta_index) :
  create_delta_index tn src old = Ok idx ->
  alloc tn (index_request tn src old) = true /\
  src_size idx = (match old with Some o => src_size o | None => O end
                  + Source.size src)%nat /\
  table_wf (table idx) /\
  (forall h, table_lookup (table idx) h =
             filter (fun e => entry_hash e =? h) (index_entries tn src old)) /\
  (forall e, In e (table_entries (table idx)) -> In e (index_entries tn src old)).
Proof.
  unfold create_delta_index.
  destruct (alloc tn (index_request tn src old)) eqn:Ea; [|discriminate].
  intros [= <-]. cbn [src_size table].
  assert (Hpos : (0 < length (repeat (@nil index_entry) (index_request tn src old)))%nat)
    by (rewrite repeat_length; unfold index_request; lia).
  split; [reflexivity|split; [reflexivity|split; [|split]]].
  - apply table_wf_fold; [exact Hpos|apply table_wf_empty].
  - intros h. rewrite table_lookup_fold by exact Hpos.
    rewrite table_lookup_empty. reflexivity.
  - intros e He. apply fold_insert_entries in He as [He|He]; [exact He|].
    rewrite empty_table_entries in He. contradiction.
Qed.

Lemma source_entries_src (tn : params) (src : source_info) (e : index_entry) :
  In e (source_entries tn src) ->
  entry_src e = src /\
  In (entry_pos e) (block_offsets (Pos.to_nat (block_size tn)) (length (source_bytes src))) /\
  entry_hash e =
    block_hash tn (block_at (Pos.to_nat (block_size tn)) (source_bytes src) (entry_pos e)).
Proof.
  unfold source_entries. intros H. apply in_map_iff in H as (p & <- & Hp).
  cbn [entry_src entry_pos entry_hash]. auto.
Qed.


(** ** Round trip *)











(** At [2^31] the header reader hands back another size than the one
    written, and the size check fails: no stream against a source of [2^31]
    bytes is applied. *)
Lemma source_size_2_31_refused (source rest : list byte) :
  Z.of_nat (length source) = 2 ^ 31 ->
  returned (get_delta_hdr_size (encode_varint (2 ^ 31) ++ rest) 0
              (length (encode_varint (2 ^ 31) ++ rest)))
    = Some (2 ^ 64 - 2 ^ 31, 5%nat) /\
  apply_delta source (encode_varint (2 ^ 31) ++ rest) = None.
Proof.
  intros Hs.
  change (encode_varint (2 ^ 31)) with [x80; x80; x80; x80; x08].
  assert (H1 : returned (get_delta_hdr_size ([x80; x80; x80; x80; x08] ++ rest) 0
                           (length ([x80; x80; x80; x80; x08] ++ rest)))
               = Some (2 ^ 64 - 2 ^ 31, 5%nat)).
  { assert (H5 : returned (hdr_loop ([x80; x80; x80; x80; x08] ++ rest) 5 0 0 0)
                 = Some (2 ^ 64 - 2 ^ 31, 5%nat)).
    { rewrite (loop_local _ 5 0 0 0 [x80; x80; x80; x80; x08]).
      - vm_compute. reflexivity.
      - intros p Hp. apply nth_error_app1. cbn [length]. lia. }
    unfold get_delta_hdr_size.
    rewrite (loop_top_irrelevant _ 5 0 0 0 _ _ x08 _ H5); [exact H5|reflexivity|reflexivity|].
    rewrite length_app. cbn [length]. lia. }
  split; [exact H1|].
  unfold apply_delta. rewrite H1, Hs. clear H1.
  destruct (_ <? _)%nat; [reflexivity|].
  destruct (returned (get_delta_hdr_size _ 5 _)) as [[target_size c2]|]; [|reflexivity].
  destruct (parse_ops _ _); reflexivity.
Qed.

(** The scenario's stream applied back with the header reader of
    [delta.h]. *)
Example example_applied :
  apply_delta example_source
    (encode_varint 10 ++ encode_varint 14
       ++ encode_ops [Insert [x78; x78]; Copy 0 10; Insert [x79; x79]])
  = Some example_target.
Proof. vm_compute. reflexivity. Qed.

(** The stream of the scenario: header (10, 14), insert ["xx"], copy of 10
    bytes from offset 0, insert ["yy"]. *)
Example example_stream :
  exists idx,
    create_delta_index example_params (whole_source example_source) None = Ok idx /\
    create_delta example_params idx example_target 0 =
      Ok (encode_varint 10 ++ encode_varint 14
            ++ encode_ops [Insert [x78; x78]; Copy 0 10; Insert [x79; x79]]).
Proof. eexists. split; reflexivity. Qed.

(** ** The size cutoff *)

Lemma header_length (a b : Z) :
  (2 <= length (encode_varint a ++ encode_varint b))%nat.
Proof.
  rewrite length_app. unfold encode_varint.
  pose proof (encode_groups_length_pos (Z.to_nat (Z.log2 a)) a).
  pose proof (encode_groups_length_pos (Z.to_nat (Z.log2 b)) b).
  lia.
Qed.

(** C6. Size cutoff: with memory granted, the unbounded call gives a stream
    of some [N] bytes; a cutoff of [N] gives the same stream, a cutoff of
    [N - 1] reports [SizeExceeded]; and under any non-zero cutoff the call
    reports [SizeExceeded] when [N] is larger, and otherwise hands back
    nothing but that stream, never one longer than the cutoff. *)
Theorem size_cutoff (tn : params) (idx : delta_index) (target : list byte) :
  (forall n, alloc tn n = true) ->
  exists stream,
    create_delta tn idx target 0 = Ok stream /\
    create_delta tn idx target (length stream) = Ok stream /\
    create_delta tn idx target (length stream - 1) = Error SizeExceeded /\
    forall max_size, max_size <> O ->
      ((max_size < length stream)%nat ->
       create_delta tn idx target max_size = Error SizeExceeded) /\
      (forall s, create_delta tn idx target max_size = Ok s ->
                 s = stream /\ (length s <= max_size)%nat).
Proof.
  intros Hmem. unfold create_delta.
  set (header := encode_varint (Z.of_nat (src_size idx))
                   ++ encode_varint (Z.of_nat (length target))).
  destruct (scan_unset tn idx target 0 [] header) as (stream & Hscan).
  assert (Hlen : (2 <= length stream)%nat).
  { destruct (scan_extends _ _ _ _ _ _ _ _ Hscan) as (ops & ->).
    rewrite length_app.
    pose proof (header_length (Z.of_nat (src_size idx)) (Z.of_nat (length target))) as Hh.
    fold header in Hh. lia. }
  assert (Hover : forall max_size, max_size <> O -> (max_size < length stream)%nat ->
            match scan tn idx max_size target 0 [] header with
            | Error e => Error e
            | Ok s => if exceeds max_size (length s) then Error SizeExceeded
                      else if alloc tn (length s) then Ok s else Error AllocationError
            end = Error SizeExceeded).
  { intros max_size Hnz Hlt.
    destruct (scan tn idx max_size target 0 [] header) as [s|e] eqn:Hs.
    - apply scan_cutoff_drop in Hs. rewrite Hscan in Hs. injection Hs as <-.
      unfold exceeds.
      destruct (Nat.eqb_spec max_size 0); [contradiction|].
      destruct (Nat.ltb_spec max_size (length stream)); [reflexivity|lia].
    - apply scan_error in Hs. rewrite Hs. reflexivity. }
  assert (Hfits : forall max_size, exceeds max_size (length stream) = false ->
            match scan tn idx max_size target 0 [] header with
            | Error e => Error e
            | Ok s => if exceeds max_size (length s) then Error SizeExceeded
                      else if alloc tn (length s) then Ok s else Error AllocationError
            end = Ok stream).
  { intros max_size Hcap.
    rewrite (scan_cutoff_within _ _ _ _ _ _ _ _ Hscan Hcap), Hcap, Hmem. reflexivity. }
  exists stream. split; [|split; [|split]].
  - apply Hfits. apply exceeds_unset.
  - apply Hfits. unfold exceeds. rewrite Nat.ltb_irrefl. apply andb_false_r.
  - apply Hover; lia.
  - intros max_size Hnz. split; [apply Hover; exact Hnz|].
    intros s Hs.
    destruct (Nat.lt_ge_cases max_size (length stream)) as [Hlt|Hge].
    + rewrite (Hover max_size Hnz Hlt) in Hs. discriminate.
    + rewrite Hfits in Hs.
      * injection Hs as <-. auto.
      * unfold exceeds. apply andb_false_intro2. apply Nat.ltb_ge. exact Hge.
Qed.

Lemma size_cutoff_witness :
  exists stream,
    create_delta example_params example_index example_target 0 = Ok stream /\
    create_delta example_params example_index example_target (length stream) = Ok stream /\
    create_delta example_params example_index example_target (length stream - 1) =
      Error SizeExceeded /\
    forall max_size, max_size <> O ->
      ((max_size < length stream)%nat ->
       create_delta example_params example_index example_target max_size =
         Error SizeExceeded) /\
      (forall s, create_delta example_params example_index example_target max_size = Ok s ->
                 s = stream /\ (length s <= max_size)%nat).
Proof.
  apply (size_cutoff example_params example_index example_target).
  intros n. reflexivity.
Defined.

(** The stream of the scenario is 10 bytes long: a cutoff of 9 is exceeded,
    a cutoff of 10 is not. *)
Example example_cutoff :
  exists idx,
    create_delta_index example_params (whole_source example_source) None = Ok idx /\
    create_delta example_params idx example_target 9 = Error SizeExceeded /\
    option_map (@length byte)
      (match create_delta example_params idx example_target 10 with
       | Ok s => Some s
       | Error _ => None
       end) = Some 10%nat.
Proof. eexists. repeat split. Qed.

(** ** Chained and degenerate indexes *)

(** The blocks of a buffer start at the multiples of [B] below its length. *)
Lemma block_offsets_complete (B len k : nat) :
  (0 < B)%nat -> (k * B < len)%nat -> In (k * B)%nat (block_offsets B len).
Proof.
  intros HB Hk. unfold block_offsets.
  apply (in_map (fun k => (k * B)%nat)). apply in_seq. split; [lia|].
  cbn [Nat.add]. apply (Nat.div_le_lower_bound (len + B - 1) B (S k)); lia.
Qed.

Lemma block_offsets_sound (B len p : nat) :
  (0 < B)%nat -> In p (block_offsets B len) ->
  exists k, p = (k * B)%nat /\ (k * B < len)%nat.
Proof.
  intros HB Hp. unfold block_offsets in Hp.
  apply in_map_iff in Hp as (k & <- & Hk). apply in_seq in Hk as [_ Hk].
  exists k. split; [reflexivity|]. cbn [Nat.add] in Hk.
  pose proof (Nat.Div0.mul_div_le (len + B - 1) B) as Hle.
  nia.
Qed.


(** Every block of a source is among its entries, and its entries are
    blocks. *)
Lemma source_entries_complete (tn : params) (src : source_info) (k : nat) :
  let B := Pos.to_nat (block_size tn) in
  (k * B < length (source_bytes src))%nat ->
  In (mk_entry (block_hash tn (block_at B (source_bytes src) (k * B))) src (k * B))
     (source_entries tn src).
Proof.
  intros B Hk. unfold source_entries. fold B.
  apply (in_map (fun p => mk_entry (block_hash tn (block_at B (source_bytes src) p)) src p)).
  apply block_offsets_complete; [apply Pos2Nat.is_pos|exact Hk].
Qed.

Lemma source_entries_block (tn : params) (src : source_info) (e : index_entry) :
  In e (source_entries tn src) -> exists k, block_entry tn src k e.
Proof.
  intros He. apply source_entries_src in He as (Hsrc & Hp & Hh).
  apply block_offsets_sound in Hp as (k & Hk & Hlt); [|apply Pos2Nat.is_pos].
  exists k. unfold block_entry. rewrite Hk in Hh. auto.
Qed.

(** C8. Chained index construction: an index built over [S2] on top of the
    standalone index of [S1] reports blocks of both.  Every block of [S1],
    looked up by the hash of its bytes, is reported by the standalone index
    and by the chained one, by the same entry, at the offset
    [S1.agg_offset + k * B]; every block of [S2] is reported by the chained
    index at [S2.agg_offset + k * B].  For every hash the chained index
    reports first exactly what the standalone index reports, then entries of
    [S2]; what either reports under a hash is a block of its source with that
    hash; and the aggregate length is the sum. *)
Theorem chained_index (tn : params) (src1 src2 : source_info)
    (idx1 idx2 : delta_index) :
  create_delta_index tn src1 None = Ok idx1 ->
  create_delta_index tn src2 (Some idx1) = Ok idx2 ->
  let B := Pos.to_nat (block_size tn) in
  (forall k, (k * B < length (source_bytes src1))%nat ->
     exists e,
       In e (table_lookup (table idx1)
               (block_hash tn (block_at B (source_bytes src1) (k * B)))) /\
       In e (table_lookup (table idx2)
               (block_hash tn (block_at B (source_bytes src1) (k * B)))) /\
       entry_src e = src1 /\
       entry_pos e = (k * B)%nat /\
       entry_offset e = (Source.agg_offset src1 + k * B)%nat) /\
  (forall k, (k * B < length (source_bytes src2))%nat ->
     exists e,
       In e (table_lookup (table idx2)
               (block_hash tn (block_at B (source_bytes src2) (k * B)))) /\
       entry_src e = src2 /\
       entry_pos e = (k * B)%nat /\
       entry_offset e = (Source.agg_offset src2 + k * B)%nat) /\
  (forall h, exists added,
     table_lookup (table idx2) h = table_lookup (table idx1) h ++ added /\
     (forall e, In e (table_lookup (table idx1) h) ->
                entry_hash e = h /\ exists k, block_entry tn src1 k e) /\
     (forall e, In e added ->
                entry_hash e = h /\ exists k, block_entry tn src2 k e)) /\
  src_size idx2 = (Source.size src1 + Source.size src2)%nat.
Proof.
  intros H1 H2 B.
  destruct (create_delta_index_ok _ _ _ _ H1) as (_ & Hsize1 & Hwf1 & Hlook1 & _).
  destruct (create_delta_index_ok _ _ _ _ H2) as (_ & Hsize2 & _ & Hlook2 & _).
  unfold index_entries in Hlook1, Hlook2. cbn [app] in Hlook1.
  assert (Hchain : forall h, table_lookup (table idx2) h =
            table_lookup (table idx1) h
              ++ filter (fun e => entry_hash e =? h) (source_entries tn src2)).
  { intros h. rewrite Hlook2, filter_app, table_wf_lookup by exact Hwf1. reflexivity. }
  assert (Hblock : forall src k,
            (k * B < length (source_bytes src))%nat ->
            In (mk_entry (block_hash tn (block_at B (source_bytes src) (k * B))) src (k * B))
               (filter (fun e => entry_hash e =?
                                 block_hash tn (block_at B (source_bytes src) (k * B)))
                       (source_entries tn src))).
  { intros src k Hk. apply filter_In. split; [|apply Z.eqb_refl].
    apply source_entries_complete. exact Hk. }
  assert (Hfiled : forall src h e,
            In e (filter (fun e => entry_hash e =? h) (source_entries tn src)) ->
            entry_hash e = h /\ exists k, block_entry tn src k e).
  { intros src h e He. apply filter_In in He as [He Hh].
    split; [apply Z.eqb_eq; exact Hh|apply source_entries_block; exact He]. }
  split; [|split; [|split]].
  - intros k Hk.
    exists (mk_entry (block_hash tn (block_at B (source_bytes src1) (k * B))) src1 (k * B)).
    rewrite Hchain, Hlook1, in_app_iff. unfold entry_offset. cbn [entry_src entry_pos].
    auto 6.
  - intros k Hk.
    exists (mk_entry (block_hash tn (block_at B (source_bytes src2) (k * B))) src2 (k * B)).
    rewrite Hchain, in_app_iff. unfold entry_offset. cbn [entry_src entry_pos].
    auto 6.
  - intros h. exists (filter (fun e => entry_hash e =? h) (source_entries tn src2)).
    split; [apply Hchain|split].
    + intros e He. rewrite Hlook1 in He. apply (Hfiled src1). exact He.
    + apply Hfiled.
  - rewrite Hsize2, Hsize1. reflexivity.
Qed.

Lemma chained_index_witness :
  let B := Pos.to_nat (block_size example_params) in
  let src1 := whole_source example_source in
  let src2 := example_second_source in
  (forall k, (k * B < length (source_bytes src1))%nat ->
     exists e,
       In e (table_lookup (table example_index)
               (block_hash example_params (block_at B (source_bytes src1) (k * B)))) /\
       In e (table_lookup (table example_chained_index)
               (block_hash example_params (block_at B (source_bytes src1) (k * B)))) /\
       entry_src e = src1 /\
       entry_pos e = (k * B)%nat /\
       entry_offset e = (Source.agg_offset src1 + k * B)%nat) /\
  (forall k, (k * B < length (source_bytes src2))%nat ->
     exists e,
       In e (table_lookup (table example_chained_index)
               (block_hash example_params (block_at B (source_bytes src2) (k * B)))) /\
       entry_src e = src2 /\
       entry_pos e = (k * B)%nat /\
       entry_offset e = (Source.agg_offset src2 + k * B)%nat) /\
  (forall h, exists added,
     table_lookup (table example_chained_index) h
       = table_lookup (table example_index) h ++ added /\
     (forall e, In e (table_lookup (table example_index) h) ->
                entry_hash e = h /\ exists k, block_entry example_params src1 k e) /\
     (forall e, In e added ->
                entry_hash e = h /\ exists k, block_entry example_params src2 k e)) /\
  src_size example_chained_index = (Source.size src1 + Source.size src2)%nat.
Proof.
  apply (chained_index example_params (whole_source example_source)
           example_second_source example_index example_chained_index);
    reflexivity.
Defined.

(** The scenario's indexes: the block ["efgh"] of the first source is found
    in both at offset 4, the block ["4567"] of the second one in the chained
    index at offset 14, after the 10 bytes of the first source. *)
Example example_chained_lookup :
  map entry_offset
    (table_lookup (table example_index)
       (block_hash example_params [x65; x66; x67; x68])) = [4%nat] /\
  map entry_offset
    (table_lookup (table example_chained_index)
       (block_hash example_params [x65; x66; x67; x68])) = [4%nat] /\
  map entry_offset
    (table_lookup (table example_chained_index)
       (block_hash example_params [x34; x35; x36; x37])) = [14%nat].
Proof. repeat split. Qed.







(** A target against the index of a source of size zero: one insert of the
    whole target behind the header (0, 3). *)
Example example_literal_delta :
  exists idx,
    create_delta_index example_params (Source.mk [] 0 0) None = Ok idx /\
    create_delta example_params idx [x61; x62; x63] 0
      = Ok [x00; x03; x03; x61; x62; x63] /\
    apply_delta [] [x00; x03; x03; x61; x62; x63] = Some [x61; x62; x63].
Proof. eexists. repeat split. Qed.

(** The only way [create_delta_index] fails is a refused allocation. *)
Lemma create_delta_index_error (tn : params) (src : source_info)
    (old : option delta_index) (e : build_error) :
  create_delta_index tn src old = Error e ->
  e = AllocationError /\ alloc tn (index_request tn src old) = false.
Proof.
  unfold create_delta_index.
  destruct (alloc tn (index_request tn src old)); [discriminate|].
  intros [= <-]. auto.
Qed.
